(** * Nine Square: the move-generation and turn-state engine

    A shallow embedding of [orthogonal_checkers.py] (class [NineSquare]).
    Python integers are [Z]; the board is a list of rows, indexed the way
    Python indexes a list (negative indices wrap, anything else out of range
    raises [IndexError], modelled by [None] in the option monad); the
    move sets are finite sets of [(row, col)] pairs. *)

From stdpp Require Import base decidable option list numbers strings gmap sets.

Set Warnings "-clear-no-such-hyp".

Open Scope Z_scope.

(** ** Constants *)

Definition BOARD_SIZE : Z := 8.
Definition SQUARE_SIZE : Z := 80.
Definition BOARD_WIDTH : Z := BOARD_SIZE * SQUARE_SIZE.
Definition BOARD_HEIGHT : Z := BOARD_SIZE * SQUARE_SIZE.
Definition FOOTER_HEIGHT : Z := 50.
Definition WINDOW_WIDTH : Z := BOARD_WIDTH.
Definition WINDOW_HEIGHT : Z := BOARD_HEIGHT + FOOTER_HEIGHT.

Definition BUTTON_WIDTH : Z := 120.
Definition BUTTON_HEIGHT : Z := 35.
Definition BUTTON_X : Z := WINDOW_WIDTH - BUTTON_WIDTH - 10.
Definition BUTTON_Y : Z := BOARD_HEIGHT + 7.

(** ** Data model *)

Inductive player : Set := PLAYER1 | PLAYER2.

#[global] Instance player_eq_dec : EqDecision player.
Proof. solve_decision. Defined.

(** A cell is [EMPTY] (Python's [None]) or holds a player's unit. *)
Abbreviation cell := (option player).
Definition EMPTY : cell := None.

Abbreviation pos := (Z * Z)%type.
Abbreviation board := (list (list cell)).

(** ** Python list indexing *)

(** [l[i]] accepts [-len l <= i < len l]; a negative index counts from the
    end. *)
Definition py_norm (n : nat) (i : Z) : option nat :=
  if decide (0 ≤ i < Z.of_nat n) then Some (Z.to_nat i)
  else if decide (- Z.of_nat n ≤ i < 0) then Some (Z.to_nat (Z.of_nat n + i))
  else None.

Definition py_getitem {A : Type} (l : list A) (i : Z) : option A :=
  k ← py_norm (length l) i; l !! k.

Definition py_setitem {A : Type} (l : list A) (i : Z) (x : A) : option (list A) :=
  k ← py_norm (length l) i; Some (<[k := x]> l).

(** [board[row][col]] *)
Definition cell_at (b : board) (row col : Z) : option cell :=
  r ← py_getitem b row; py_getitem r col.

(** [board[row][col] = v]: the row object is fetched and updated in place.
    The rows of a board are distinct list objects ([_initialize_board] builds
    each with its own comprehension), so no other row changes. *)
Definition set_cell (b : board) (row col : Z) (v : cell) : option board :=
  r ← py_getitem b row;
  r' ← py_setitem r col v;
  py_setitem b row r'.

(** ** Board initialisation *)

Definition range (lo hi : Z) : list Z := seqZ lo (hi - lo).

(** The nested [for] loops of [_initialize_board] writing [v] into the block
    [rows x cols]. *)
Definition fill_block (rows cols : list Z) (v : cell) (b : board) : option board :=
  foldl (λ acc row,
           foldl (λ acc' col, b' ← acc'; set_cell b' row col v) acc cols)
        (Some b) rows.

Definition _initialize_board : option board :=
  let b0 : board :=
    (λ _, (λ _, EMPTY) <$> range 0 BOARD_SIZE) <$> range 0 BOARD_SIZE in
  b1 ← fill_block (range 0 3) (range 0 3) (Some PLAYER1) b0;
  fill_block (range 5 8) (range 5 8) (Some PLAYER2) b1.

Definition _is_valid_position (row col : Z) : bool :=
  bool_decide (0 ≤ row < BOARD_SIZE) && bool_decide (0 ≤ col < BOARD_SIZE).

(** ** Move generation *)

(** north, south, east, west *)
Definition directions : list (Z * Z) := [(-1, 0); (1, 0); (0, 1); (0, -1)].

Definition simple_step (b : board) (row col : Z)
    (acc : option (gset pos)) (d : Z * Z) : option (gset pos) :=
  moves ← acc;
  let new_row := row + d.1 in
  let new_col := col + d.2 in
  if _is_valid_position new_row new_col then
    x ← cell_at b new_row new_col;
    if decide (x = EMPTY) then Some (moves ∪ {[ (new_row, new_col) ]})
    else Some moves
  else Some moves.

Definition _get_simple_moves (b : board) (row col : Z) : option (gset pos) :=
  foldl (simple_step b row col) (Some ∅) directions.

Definition jump_step (b : board) (row col : Z)
    (acc : option (gset pos)) (d : Z * Z) : option (gset pos) :=
  jumps ← acc;
  let adj_row := row + d.1 in
  let adj_col := col + d.2 in
  if _is_valid_position adj_row adj_col then
    a ← cell_at b adj_row adj_col;
    if decide (a ≠ None) then
      let land_row := adj_row + d.1 in
      let land_col := adj_col + d.2 in
      if _is_valid_position land_row land_col then
        x ← cell_at b land_row land_col;
        if decide (x = EMPTY) then Some (jumps ∪ {[ (land_row, land_col) ]})
        else Some jumps
      else Some jumps
    else Some jumps
  else Some jumps.

(** [player = self.board[row][col]] is read first (and never used): the read
    raises when [(row, col)] is out of range. *)
Definition _get_jump_moves (b : board) (row col : Z) : option (gset pos) :=
  _ ← cell_at b row col;
  foldl (jump_step b row col) (Some ∅) directions.

(** ** Win detection *)

Definition _is_in_home_area (row col : Z) (pl : player) : bool :=
  if decide (pl = PLAYER1) then
    bool_decide (5 ≤ row ≤ 7) && bool_decide (5 ≤ col ≤ 7)
  else
    bool_decide (0 ≤ row ≤ 2) && bool_decide (0 ≤ col ≤ 2).

(** The cells in the order the double loop of [_check_win_condition] visits
    them. *)
Definition scan_order : list pos :=
  row ← range 0 BOARD_SIZE; col ← range 0 BOARD_SIZE; [(row, col)].

Definition scan_step (b : board)
    (acc : option (list pos * list pos)) (p : pos) : option (list pos * list pos) :=
  '(p1_units, p2_units) ← acc;
  x ← cell_at b p.1 p.2;
  if decide (x = Some PLAYER1) then Some (p1_units ++ [p], p2_units)
  else if decide (x = Some PLAYER2) then Some (p1_units, p2_units ++ [p])
  else Some (p1_units, p2_units).

Definition _check_win_condition (b : board) : option (option player) :=
  '(p1_units, p2_units) ← foldl (scan_step b) (Some ([], [])) scan_order;
  let p1_all_in_target :=
    forallb (λ p : pos, _is_in_home_area p.1 p.2 PLAYER1) p1_units in
  let p2_all_in_target :=
    forallb (λ p : pos, _is_in_home_area p.1 p.2 PLAYER2) p2_units in
  if p1_all_in_target then Some (Some PLAYER1)
  else if p2_all_in_target then Some (Some PLAYER2)
  else Some None.

(** ** Move application *)

Definition _perform_jump (b : board) (from_row from_col to_row to_col : Z)
    : option board :=
  v ← cell_at b from_row from_col;
  b1 ← set_cell b to_row to_col v;
  set_cell b1 from_row from_col EMPTY.

Definition _perform_simple_move (b : board) (from_row from_col to_row to_col : Z)
    : option board :=
  v ← cell_at b from_row from_col;
  b1 ← set_cell b to_row to_col v;
  set_cell b1 from_row from_col EMPTY.

Definition _is_point_in_button (p : Z * Z) : bool :=
  bool_decide (BUTTON_X ≤ p.1 ≤ BUTTON_X + BUTTON_WIDTH)
  && bool_decide (BUTTON_Y ≤ p.2 ≤ BUTTON_Y + BUTTON_HEIGHT).

(** ** Game state *)

Record state : Type := mkState {
  st_board : board;
  current_player : player;
  selected_unit : option pos;
  possible_moves : gset pos;
  possible_jumps : gset pos;
  game_over : bool;
  winner : option player;
  in_jump_sequence : bool;
  button_hovered : bool
}.

(** The game-state part of [__init__]. *)
Definition init : option state :=
  b ← _initialize_board;
  Some (mkState b PLAYER1 None ∅ ∅ false None false false).

Definition with_board (s : state) (b : board) : state :=
  mkState b (current_player s) (selected_unit s) (possible_moves s)
          (possible_jumps s) (game_over s) (winner s) (in_jump_sequence s)
          (button_hovered s).

Definition _deselect_unit (s : state) : state :=
  mkState (st_board s) (current_player s) None ∅ ∅ (game_over s) (winner s)
          false (button_hovered s).

Definition other_player (pl : player) : player :=
  if decide (pl = PLAYER1) then PLAYER2 else PLAYER1.

Definition _end_turn (s : state) : option state :=
  let s1 := _deselect_unit s in
  w ← _check_win_condition (st_board s1);
  match w with
  | Some pl =>
      Some (mkState (st_board s1) (current_player s1) (selected_unit s1)
              (possible_moves s1) (possible_jumps s1) true (Some pl)
              (in_jump_sequence s1) (button_hovered s1))
  | None =>
      Some (mkState (st_board s1) (other_player (current_player s1))
              (selected_unit s1) (possible_moves s1) (possible_jumps s1)
              (game_over s1) (winner s1) (in_jump_sequence s1)
              (button_hovered s1))
  end.

(** Selecting the unit at [(row, col)]: both move sets are computed. *)
Definition select_unit (s : state) (row col : Z) : option state :=
  moves ← _get_simple_moves (st_board s) row col;
  jumps ← _get_jump_moves (st_board s) row col;
  Some (mkState (st_board s) (current_player s) (Some (row, col)) moves jumps
          (game_over s) (winner s) (in_jump_sequence s) (button_hovered s)).

(** The part of [handle_click] that follows the bounds check (the selection
    and move logic), for a click that fell in the in-bounds cell
    [(row, col)]. *)
Definition board_click (s : state) (row col : Z) : option state :=
  match selected_unit s with
  | None =>
      (* no unit is selected, try to select one *)
      x ← cell_at (st_board s) row col;
      if decide (x = Some (current_player s)) then select_unit s row col
      else Some s
  | Some (selected_row, selected_col) =>
      (* clicking on the same unit deselects *)
      if decide ((row, col) = (selected_row, selected_col)) then
        Some (_deselect_unit s)
      else if decide ((row, col) ∈ possible_jumps s) then
        b' ← _perform_jump (st_board s) selected_row selected_col row col;
        new_jumps ← _get_jump_moves b' row col;
        if decide (new_jumps ≠ ∅) then
          (* continue the jump sequence *)
          Some (mkState b' (current_player s) (Some (row, col)) ∅ new_jumps
                  (game_over s) (winner s) true (button_hovered s))
        else _end_turn (with_board s b')
      else if bool_decide ((row, col) ∈ possible_moves s)
              && negb (in_jump_sequence s) then
        b' ← _perform_simple_move (st_board s) selected_row selected_col row col;
        _end_turn (with_board s b')
      else
        x ← cell_at (st_board s) row col;
        if bool_decide (x = Some (current_player s))
           && negb (in_jump_sequence s) then select_unit s row col
        else if negb (in_jump_sequence s) then Some (_deselect_unit s)
        else Some s
  end.

Definition handle_click (s : state) (mouse_pos : Z * Z) : option state :=
  if game_over s then Some s
  else if in_jump_sequence s && _is_point_in_button mouse_pos then _end_turn s
  else
    let col := mouse_pos.1 `div` SQUARE_SIZE in
    let row := mouse_pos.2 `div` SQUARE_SIZE in
    if negb (_is_valid_position row col) then Some s
    else board_click s row col.

Definition handle_mouse_motion (s : state) (mouse_pos : Z * Z) : state :=
  if in_jump_sequence s then
    mkState (st_board s) (current_player s) (selected_unit s) (possible_moves s)
            (possible_jumps s) (game_over s) (winner s) (in_jump_sequence s)
            (_is_point_in_button mouse_pos)
  else s.

(** ** Drawing

    The drawing methods only call pygame; each is modelled by the list of
    the calls it makes, in order. *)

Abbreviation colour := (Z * Z * Z)%type.

Definition BLACK : colour := (0, 0, 0).
Definition WHITE : colour := (255, 255, 255).
Definition RED : colour := (220, 20, 20).
Definition BLUE : colour := (20, 20, 220).
Definition YELLOW : colour := (255, 255, 0).
Definition GREEN : colour := (0, 255, 0).
Definition BUTTON_COLOR : colour := (60, 60, 60).
Definition BUTTON_HOVER : colour := (80, 80, 80).

(** [self.font] and [self.button_font] *)
Inductive font : Set := FONT | BUTTON_FONT.

(** Where [get_rect] puts a rendered text: [center=(cx, cy)],
    [left=.., centery=..], or the centre of a rectangle. *)
Inductive placement : Set :=
  | AtCenter (cx cy : Z)
  | AtLeft (left centery : Z)
  | AtCenterOf (x y w h : Z).

(** [screen.fill], [pygame.draw.rect] (width 0, the default, fills the
    rectangle), [pygame.draw.circle] (likewise), rendering a text and
    blitting it, [pygame.display.flip]. *)
Inductive draw_call : Set :=
  | Fill (c : colour)
  | DrawRect (c : colour) (x y w h : Z) (width : Z)
  | DrawCircle (c : colour) (cx cy radius : Z) (width : Z)
  | BlitText (f : font) (text : string) (c : colour) (place : placement)
  | Flip.

Definition draw_square (s : state) (p : pos) : list draw_call :=
  let row := p.1 in
  let col := p.2 in
  let x := col * SQUARE_SIZE in
  let y := row * SQUARE_SIZE in
  let color := if decide ((row + col) `mod` 2 = 0) then WHITE else BLACK in
  DrawRect color x y SQUARE_SIZE SQUARE_SIZE 0
  :: (if decide (selected_unit s = Some (row, col)) then
        [DrawRect YELLOW x y SQUARE_SIZE SQUARE_SIZE 4]
      else if bool_decide ((row, col) ∈ possible_moves s)
              || bool_decide ((row, col) ∈ possible_jumps s) then
        [DrawRect GREEN x y SQUARE_SIZE SQUARE_SIZE 4]
      else []).

Definition draw_board (s : state) : list draw_call :=
  p ← scan_order; draw_square s p.

Definition draw_unit (b : board) (acc : option (list draw_call)) (p : pos)
    : option (list draw_call) :=
  calls ← acc;
  unit ← cell_at b p.1 p.2;
  match unit with
  | Some pl =>
      let center_x := p.2 * SQUARE_SIZE + SQUARE_SIZE `div` 2 in
      let center_y := p.1 * SQUARE_SIZE + SQUARE_SIZE `div` 2 in
      let color := if decide (pl = PLAYER1) then RED else BLUE in
      Some (calls ++ [DrawCircle color center_x center_y 30 0;
                      DrawCircle WHITE center_x center_y 30 2])
  | None => Some calls
  end.

Definition draw_units (b : board) : option (list draw_call) :=
  foldl (draw_unit b) (Some []) scan_order.

Definition draw_end_turn_button (s : state) : list draw_call :=
  if negb (in_jump_sequence s) then []
  else
    let button_color := if button_hovered s then BUTTON_HOVER else BUTTON_COLOR in
    [ DrawRect button_color BUTTON_X BUTTON_Y BUTTON_WIDTH BUTTON_HEIGHT 0;
      DrawRect WHITE BUTTON_X BUTTON_Y BUTTON_WIDTH BUTTON_HEIGHT 2;
      BlitText BUTTON_FONT "End Turn" WHITE
        (AtCenterOf BUTTON_X BUTTON_Y BUTTON_WIDTH BUTTON_HEIGHT) ].

(** The status line [draw_footer] renders. *)
Definition footer_text (s : state) : string :=
  if game_over s then
    match winner s with
    | Some w =>
        let winner_color := if decide (w = PLAYER1) then "Red" else "Blue" in
        String.append winner_color " Wins!"
    | None => "Game Over"
    end
  else
    let player_color :=
      if decide (current_player s = PLAYER1) then "Red" else "Blue" in
    if in_jump_sequence s then
      String.append player_color " Turn - Continue Jumping or End Turn"
    else String.append player_color " Turn".

Definition draw_footer (s : state) : list draw_call :=
  [ DrawRect BLACK 0 BOARD_HEIGHT WINDOW_WIDTH FOOTER_HEIGHT 0;
    BlitText FONT (footer_text s) WHITE
      (if in_jump_sequence s then
         AtLeft 20 (BOARD_HEIGHT + FOOTER_HEIGHT `div` 2)
       else
         AtCenter (WINDOW_WIDTH `div` 2) (BOARD_HEIGHT + FOOTER_HEIGHT `div` 2)) ].

Definition draw (s : state) : option (list draw_call) :=
  units ← draw_units (st_board s);
  Some (Fill BLACK :: draw_board s ++ units ++ draw_footer s
          ++ draw_end_turn_button s ++ [Flip]).

(** ** Specification vocabulary *)

(** A board as [_initialize_board] builds it: 8 rows of 8 cells. *)
Definition wf_board (b : board) : Prop :=
  length b = 8%nat ∧ Forall (λ r : list cell, length r = 8%nat) b.

Definition valid (p : pos) : Prop := _is_valid_position p.1 p.2 = true.

(** The number of cells of a board that hold [k]. *)
Definition count_row (k : cell) (r : list cell) : nat :=
  sum_list_with (λ x, if decide (x = k) then 1%nat else 0%nat) r.

Definition count_cells (k : cell) (b : board) : nat :=
  sum_list_with (count_row k) b.

(** The cell a click at pixel [mouse_pos] falls in, as [(row, col)]. *)
Definition clicked_cell (mouse_pos : Z * Z) : pos :=
  (mouse_pos.2 `div` SQUARE_SIZE, mouse_pos.1 `div` SQUARE_SIZE).

(** The cell [n] steps from [p] in direction [d]. *)
Definition shift (p : pos) (n : Z) (d : Z * Z) : pos :=
  (p.1 + n * d.1, p.2 + n * d.2).

Definition holds_unit (b : board) (p : pos) : Prop :=
  ∃ pl, cell_at b p.1 p.2 = Some (Some pl).

Definition is_empty (b : board) (p : pos) : Prop :=
  cell_at b p.1 p.2 = Some EMPTY.

(** One step in direction [d] from [p] lands on an in-bounds empty cell. *)
Definition simple_target (b : board) (p : pos) (d : Z * Z) : Prop :=
  valid (shift p 1 d) ∧ is_empty b (shift p 1 d).

(** The cell next to [p] in direction [d] holds a unit and the cell one
    further is in bounds and empty. *)
Definition jump_target (b : board) (p : pos) (d : Z * Z) : Prop :=
  valid (shift p 2 d) ∧ holds_unit b (shift p 1 d) ∧ is_empty b (shift p 2 d).

(** Every unit of [pl] stands in the 3x3 block given by [lo] and [hi]. *)
Definition all_within (b : board) (pl : player) (lo hi : Z) : Prop :=
  ∀ p : pos, valid p → cell_at b p.1 p.2 = Some (Some pl) →
    lo ≤ p.1 ≤ hi ∧ lo ≤ p.2 ≤ hi.

(** The states of the turn sequence. *)
Definition Idle (s : state) : Prop :=
  game_over s = false ∧ in_jump_sequence s = false ∧ selected_unit s = None.

Definition Selected (s : state) (p : pos) : Prop :=
  game_over s = false ∧ in_jump_sequence s = false ∧ selected_unit s = Some p.

Definition JumpChain (s : state) (p : pos) : Prop :=
  game_over s = false ∧ in_jump_sequence s = true ∧ selected_unit s = Some p.

(** The states the game can be in: those the event loop of [run] reaches
    from the initial one by clicks and mouse motion. *)
Inductive reachable : state → Prop :=
  | reach_init s : init = Some s → reachable s
  | reach_click s mouse_pos s' :
      reachable s → handle_click s mouse_pos = Some s' → reachable s'
  | reach_motion s mouse_pos :
      reachable s → reachable (handle_mouse_motion s mouse_pos).

Definition run_clicks (s : state) (l : list (Z * Z)) : option state :=
  foldl (λ acc p, s' ← acc; handle_click s' p) (Some s) l.

(** What every reachable state satisfies. *)
Definition state_inv (s : state) : Prop :=
  wf_board (st_board s)
  ∧ count_cells (Some PLAYER1) (st_board s) = 9%nat
  ∧ count_cells (Some PLAYER2) (st_board s) = 9%nat
  ∧ (winner s ≠ None ↔ game_over s = true)
  ∧ (game_over s = true → selected_unit s = None ∧ in_jump_sequence s = false)
  ∧ (∀ p, selected_unit s = Some p →
       valid p
       ∧ ∀ q, q ∈ possible_moves s ∪ possible_jumps s →
           valid q ∧ cell_at (st_board s) q.1 q.2 = Some EMPTY).

(** ** The selection and move logic as a step relation *)

(** What a click on the in-bounds cell [(row, col)] does, one constructor
    per branch of the selection and move logic of [handle_click]. *)
Inductive board_step (s : state) (row col : Z) : state → Prop :=
  | step_select s' :
      selected_unit s = None →
      cell_at (st_board s) row col = Some (Some (current_player s)) →
      select_unit s row col = Some s' →
      board_step s row col s'
  | step_idle_ignore x :
      selected_unit s = None →
      cell_at (st_board s) row col = Some x → x ≠ Some (current_player s) →
      board_step s row col s
  | step_deselect_same :
      selected_unit s = Some (row, col) →
      board_step s row col (_deselect_unit s)
  | step_jump_chain p b' new_jumps :
      selected_unit s = Some p → (row, col) ≠ p →
      (row, col) ∈ possible_jumps s →
      _perform_jump (st_board s) p.1 p.2 row col = Some b' →
      _get_jump_moves b' row col = Some new_jumps → new_jumps ≠ ∅ →
      board_step s row col
        (mkState b' (current_player s) (Some (row, col)) ∅ new_jumps
                 (game_over s) (winner s) true (button_hovered s))
  | step_jump_end p b' s' :
      selected_unit s = Some p → (row, col) ≠ p →
      (row, col) ∈ possible_jumps s →
      _perform_jump (st_board s) p.1 p.2 row col = Some b' →
      _get_jump_moves b' row col = Some ∅ →
      _end_turn (with_board s b') = Some s' →
      board_step s row col s'
  | step_simple_move p b' s' :
      selected_unit s = Some p → (row, col) ≠ p →
      (row, col) ∉ possible_jumps s →
      (row, col) ∈ possible_moves s → in_jump_sequence s = false →
      _perform_simple_move (st_board s) p.1 p.2 row col = Some b' →
      _end_turn (with_board s b') = Some s' →
      board_step s row col s'
  | step_reselect p s' :
      selected_unit s = Some p → (row, col) ≠ p →
      (row, col) ∉ possible_jumps s → (row, col) ∉ possible_moves s →
      in_jump_sequence s = false →
      cell_at (st_board s) row col = Some (Some (current_player s)) →
      select_unit s row col = Some s' →
      board_step s row col s'
  | step_deselect_other p x :
      selected_unit s = Some p → (row, col) ≠ p →
      (row, col) ∉ possible_jumps s → (row, col) ∉ possible_moves s →
      in_jump_sequence s = false →
      cell_at (st_board s) row col = Some x → x ≠ Some (current_player s) →
      board_step s row col (_deselect_unit s)
  | step_chain_ignore p x :
      selected_unit s = Some p → (row, col) ≠ p →
      (row, col) ∉ possible_jumps s →
      in_jump_sequence s = true →
      cell_at (st_board s) row col = Some x →
      board_step s row col s.

(** How the selection, the recorded move sets and the winner relate to the
    board in a state of the game. *)
Definition coherent (s : state) : Prop :=
  match selected_unit s with
  | None =>
      possible_moves s = ∅ ∧ possible_jumps s = ∅ ∧ in_jump_sequence s = false
  | Some p =>
      game_over s = false
      ∧ cell_at (st_board s) p.1 p.2 = Some (Some (current_player s))
      ∧ _get_jump_moves (st_board s) p.1 p.2 = Some (possible_jumps s)
      ∧ (if in_jump_sequence s
         then possible_moves s = ∅ ∧ possible_jumps s ≠ ∅
         else _get_simple_moves (st_board s) p.1 p.2 = Some (possible_moves s))
  end
  ∧ (∀ pl, winner s = Some pl →
       _check_win_condition (st_board s) = Some (Some pl)).

(** Every unit of [pl] stands in the area [_is_in_home_area] gives for
    [pl]: the condition [_check_win_condition] computes for that player. *)
Definition all_home (b : board) (pl : player) : Prop :=
  ∀ p : pos, valid p → cell_at b p.1 p.2 = Some (Some pl) →
    _is_in_home_area p.1 p.2 pl = true.

(** [b'] is [b] after the unit at [p], one of [pl]'s, went to the empty
    cell [t]. *)
Definition unit_moved (b : board) (pl : player) (p t : pos) (b' : board) : Prop :=
  valid p ∧ valid t ∧ t ≠ p
  ∧ cell_at b p.1 p.2 = Some (Some pl)
  ∧ is_empty b t
  ∧ _perform_jump b p.1 p.2 t.1 t.2 = Some b'.

(** The player not on move has not brought all units home, and a recorded
    winner is the player on move. *)
Definition mover_wins (s : state) : Prop :=
  ¬ all_home (st_board s) (other_player (current_player s))
  ∧ ∀ pl, winner s = Some pl → pl = current_player s.

(** The two circles [draw_units] draws for the cell [p] when it holds a
    unit. *)
Definition unit_calls (b : board) (p : pos) : list draw_call :=
  match cell_at b p.1 p.2 with
  | Some (Some pl) =>
      [ DrawCircle (if decide (pl = PLAYER1) then RED else BLUE)
          (p.2 * SQUARE_SIZE + SQUARE_SIZE `div` 2)
          (p.1 * SQUARE_SIZE + SQUARE_SIZE `div` 2) 30 0;
        DrawCircle WHITE
          (p.2 * SQUARE_SIZE + SQUARE_SIZE `div` 2)
          (p.1 * SQUARE_SIZE + SQUARE_SIZE `div` 2) 30 2 ]
  | _ => []
  end.

(** The state with the hover flag of the End Turn button put to [h]. *)
Definition with_hover (s : state) (h : bool) : state :=
  mkState (st_board s) (current_player s) (selected_unit s) (possible_moves s)
          (possible_jumps s) (game_over s) (winner s) (in_jump_sequence s) h.

(** ** Concrete positions

    The opening position and the first two clicks of a game in which red
    picks the unit at (1, 1) and hops east over (1, 2), after which the hop
    back is available. *)

Definition start_board : board :=
  [ [Some PLAYER1; Some PLAYER1; Some PLAYER1; EMPTY; EMPTY; EMPTY; EMPTY; EMPTY];
    [Some PLAYER1; Some PLAYER1; Some PLAYER1; EMPTY; EMPTY; EMPTY; EMPTY; EMPTY];
    [Some PLAYER1; Some PLAYER1; Some PLAYER1; EMPTY; EMPTY; EMPTY; EMPTY; EMPTY];
    [EMPTY; EMPTY; EMPTY; EMPTY; EMPTY; EMPTY; EMPTY; EMPTY];
    [EMPTY; EMPTY; EMPTY; EMPTY; EMPTY; EMPTY; EMPTY; EMPTY];
    [EMPTY; EMPTY; EMPTY; EMPTY; EMPTY; Some PLAYER2; Some PLAYER2; Some PLAYER2];
    [EMPTY; EMPTY; EMPTY; EMPTY; EMPTY; Some PLAYER2; Some PLAYER2; Some PLAYER2];
    [EMPTY; EMPTY; EMPTY; EMPTY; EMPTY; Some PLAYER2; Some PLAYER2; Some PLAYER2] ].

Definition hop_board : board :=
  [ [Some PLAYER1; Some PLAYER1; Some PLAYER1; EMPTY; EMPTY; EMPTY; EMPTY; EMPTY];
    [Some PLAYER1; EMPTY; Some PLAYER1; Some PLAYER1; EMPTY; EMPTY; EMPTY; EMPTY];
    [Some PLAYER1; Some PLAYER1; Some PLAYER1; EMPTY; EMPTY; EMPTY; EMPTY; EMPTY];
    [EMPTY; EMPTY; EMPTY; EMPTY; EMPTY; EMPTY; EMPTY; EMPTY];
    [EMPTY; EMPTY; EMPTY; EMPTY; EMPTY; EMPTY; EMPTY; EMPTY];
    [EMPTY; EMPTY; EMPTY; EMPTY; EMPTY; Some PLAYER2; Some PLAYER2; Some PLAYER2];
    [EMPTY; EMPTY; EMPTY; EMPTY; EMPTY; Some PLAYER2; Some PLAYER2; Some PLAYER2];
    [EMPTY; EMPTY; EMPTY; EMPTY; EMPTY; Some PLAYER2; Some PLAYER2; Some PLAYER2] ].

(** [hop_board] with a blue unit put on the vacated cell (1, 1). *)
Definition hop_board_refilled : board :=
  [ [Some PLAYER1; Some PLAYER1; Some PLAYER1; EMPTY; EMPTY; EMPTY; EMPTY; EMPTY];
    [Some PLAYER1; Some PLAYER2; Some PLAYER1; Some PLAYER1; EMPTY; EMPTY; EMPTY; EMPTY];
    [Some PLAYER1; Some PLAYER1; Some PLAYER1; EMPTY; EMPTY; EMPTY; EMPTY; EMPTY];
    [EMPTY; EMPTY; EMPTY; EMPTY; EMPTY; EMPTY; EMPTY; EMPTY];
    [EMPTY; EMPTY; EMPTY; EMPTY; EMPTY; EMPTY; EMPTY; EMPTY];
    [EMPTY; EMPTY; EMPTY; EMPTY; EMPTY; Some PLAYER2; Some PLAYER2; Some PLAYER2];
    [EMPTY; EMPTY; EMPTY; EMPTY; EMPTY; Some PLAYER2; Some PLAYER2; Some PLAYER2];
    [EMPTY; EMPTY; EMPTY; EMPTY; EMPTY; Some PLAYER2; Some PLAYER2; Some PLAYER2] ].

(** Both sides have crossed: red fills the bottom-right block and blue the
    top-left one. *)
Definition crossed_board : board :=
  [ [Some PLAYER2; Some PLAYER2; Some PLAYER2; EMPTY; EMPTY; EMPTY; EMPTY; EMPTY];
    [Some PLAYER2; Some PLAYER2; Some PLAYER2; EMPTY; EMPTY; EMPTY; EMPTY; EMPTY];
    [Some PLAYER2; Some PLAYER2; Some PLAYER2; EMPTY; EMPTY; EMPTY; EMPTY; EMPTY];
    [EMPTY; EMPTY; EMPTY; EMPTY; EMPTY; EMPTY; EMPTY; EMPTY];
    [EMPTY; EMPTY; EMPTY; EMPTY; EMPTY; EMPTY; EMPTY; EMPTY];
    [EMPTY; EMPTY; EMPTY; EMPTY; EMPTY; Some PLAYER1; Some PLAYER1; Some PLAYER1];
    [EMPTY; EMPTY; EMPTY; EMPTY; EMPTY; Some PLAYER1; Some PLAYER1; Some PLAYER1];
    [EMPTY; EMPTY; EMPTY; EMPTY; EMPTY; Some PLAYER1; Some PLAYER1; Some PLAYER1] ].

Definition won_state : state :=
  mkState crossed_board PLAYER2 None ∅ ∅ true (Some PLAYER1) false false.

Definition start_state : state :=
  mkState start_board PLAYER1 None ∅ ∅ false None false false.

Definition picked_state : state :=
  mkState start_board PLAYER1 (Some (1, 1)) ∅ {[ (1, 3); (3, 1) ]}
          false None false false.


Definition chain_state : state :=
  mkState hop_board PLAYER1 (Some (1, 3)) ∅ {[ (1, 1) ]} false None true false.

(** A whole game, click by click: red and blue cross the board, the jump
    turns are closed with the End Turn button at (520, 650), and red's last
    step fills the bottom-right block. *)
Definition full_game : list (Z * Z) :=
  [
    (200, 120); (280, 120); (520, 440); (360, 440); (520, 650); (40, 120);
    (200, 120); (200, 280); (520, 650); (520, 520); (360, 520); (360, 360);
    (520, 650); (120, 120); (120, 280); (280, 280); (520, 650); (440, 520);
    (440, 360); (280, 360); (280, 200); (280, 40); (520, 650); (120, 200);
    (280, 200); (280, 360); (440, 360); (440, 520); (520, 650); (280, 40);
    (280, 200); (120, 200); (520, 650); (120, 40); (280, 40); (280, 200);
    (280, 360); (440, 360); (520, 650); (360, 360); (280, 360); (200, 200);
    (200, 360); (360, 360); (360, 520); (520, 520); (520, 650); (440, 440);
    (440, 280); (520, 650); (40, 200); (200, 200); (200, 360); (360, 360);
    (520, 360); (520, 650); (520, 600); (520, 440); (520, 280); (360, 280);
    (520, 650); (280, 280); (280, 200); (440, 600); (440, 440); (280, 440);
    (280, 280); (120, 280); (120, 120); (520, 650); (520, 360); (520, 440);
    (600, 440); (440, 440); (280, 440); (280, 280); (120, 280); (520, 650);
    (280, 120); (280, 280); (280, 440); (440, 440); (440, 600); (520, 650);
    (600, 600); (600, 440); (440, 440); (280, 440); (280, 280); (280, 120);
    (520, 650); (280, 200); (360, 200); (360, 280); (360, 120); (200, 120);
    (40, 120); (520, 650); (40, 40); (40, 200); (200, 200); (200, 360);
    (360, 360); (360, 520); (520, 650); (120, 120); (120, 40); (200, 40);
    (40, 40); (40, 200); (200, 200); (200, 360); (360, 360); (520, 650);
    (360, 440); (360, 280); (360, 120); (200, 120); (520, 650); (360, 200);
    (360, 280); (440, 280); (280, 280); (520, 650); (360, 280); (360, 440);
    (360, 600); (520, 600); (520, 650); (600, 520); (600, 440); (200, 280);
    (360, 280); (360, 440); (520, 650); (600, 440); (440, 440); (440, 280);
    (520, 650); (520, 520); (600, 520); (280, 360); (280, 200); (520, 650);
    (360, 360); (520, 360); (520, 520); (520, 650); (440, 280); (360, 280);
    (440, 360); (440, 440); (360, 280); (200, 280); (40, 280); (520, 650);
    (440, 440); (600, 440); (520, 650); (280, 120); (120, 120); (520, 650);
    (360, 440); (440, 440); (280, 200); (200, 200); (360, 520); (360, 600);
    (40, 280); (40, 200); (440, 600); (600, 600); (520, 650); (280, 280);
    (280, 200); (360, 600); (440, 600)
  ].

Definition finished_board : board :=
  [ [EMPTY; Some PLAYER2; EMPTY; EMPTY; EMPTY; EMPTY; EMPTY; EMPTY];
    [Some PLAYER2; Some PLAYER2; Some PLAYER2; EMPTY; EMPTY; EMPTY; EMPTY; EMPTY];
    [Some PLAYER2; Some PLAYER2; Some PLAYER2; Some PLAYER2; EMPTY; EMPTY; EMPTY; EMPTY];
    [EMPTY; Some PLAYER2; EMPTY; EMPTY; EMPTY; EMPTY; EMPTY; EMPTY];
    [EMPTY; EMPTY; EMPTY; EMPTY; EMPTY; EMPTY; EMPTY; EMPTY];
    [EMPTY; EMPTY; EMPTY; EMPTY; EMPTY; Some PLAYER1; Some PLAYER1; Some PLAYER1];
    [EMPTY; EMPTY; EMPTY; EMPTY; EMPTY; Some PLAYER1; Some PLAYER1; Some PLAYER1];
    [EMPTY; EMPTY; EMPTY; EMPTY; EMPTY; Some PLAYER1; Some PLAYER1; Some PLAYER1] ].

Definition finished_state : state :=
  mkState finished_board PLAYER1 None ∅ ∅ true (Some PLAYER1) false false.

(** A whole game that blue wins. *)
Definition full_game_blue : list (Z * Z) :=
  [
    (200, 120); (280, 120); (520, 440); (360, 440); (520, 650); (40, 120);
    (200, 120); (200, 280); (520, 650); (520, 520); (360, 520); (360, 360);
    (520, 650); (120, 120); (120, 280); (280, 280); (520, 650); (440, 520);
    (440, 360); (280, 360); (280, 200); (280, 40); (520, 650); (120, 200);
    (280, 200); (280, 360); (440, 360); (440, 520); (520, 650); (280, 40);
    (280, 200); (120, 200); (520, 650); (120, 40); (280, 40); (280, 200);
    (280, 360); (440, 360); (520, 650); (360, 360); (280, 360); (200, 200);
    (200, 360); (360, 360); (360, 520); (520, 520); (520, 650); (440, 440);
    (440, 280); (520, 650); (40, 200); (200, 200); (200, 360); (360, 360);
    (520, 360); (520, 650); (520, 600); (520, 440); (520, 280); (360, 280);
    (520, 650); (280, 280); (280, 200); (440, 600); (440, 440); (280, 440);
    (280, 280); (120, 280); (120, 120); (520, 650); (520, 360); (520, 440);
    (600, 440); (440, 440); (280, 440); (280, 280); (120, 280); (520, 650);
    (280, 120); (280, 280); (280, 440); (440, 440); (440, 600); (520, 650);
    (600, 600); (600, 440); (440, 440); (280, 440); (280, 280); (280, 120);
    (520, 650); (280, 200); (360, 200); (360, 280); (360, 120); (200, 120);
    (40, 120); (520, 650); (40, 40); (40, 200); (200, 200); (200, 360);
    (360, 360); (360, 520); (520, 650); (120, 120); (120, 40); (200, 40);
    (40, 40); (40, 200); (200, 200); (200, 360); (360, 360); (520, 650);
    (360, 440); (360, 280); (360, 120); (200, 120); (520, 650); (360, 200);
    (360, 280); (440, 280); (280, 280); (520, 650); (360, 280); (360, 440);
    (360, 600); (520, 600); (520, 650); (600, 520); (600, 440); (200, 280);
    (360, 280); (360, 440); (520, 650); (600, 440); (440, 440); (440, 280);
    (520, 650); (520, 520); (600, 520); (280, 360); (280, 200); (520, 650);
    (360, 360); (520, 360); (520, 520); (520, 650); (440, 280); (360, 280);
    (440, 360); (440, 440); (360, 280); (200, 280); (40, 280); (520, 650);
    (440, 440); (600, 440); (520, 650); (280, 120); (120, 120); (520, 650);
    (360, 440); (440, 440); (280, 200); (200, 200); (600, 440); (600, 600);
    (520, 650); (40, 280); (40, 200); (440, 440); (600, 440); (520, 650);
    (280, 280); (280, 200); (520, 440); (440, 440); (200, 200); (200, 40);
    (520, 650); (440, 440); (520, 440); (280, 200); (200, 200); (520, 440);
    (440, 440); (120, 40); (40, 40); (440, 440); (520, 440); (120, 120);
    (120, 40); (520, 440); (440, 440); (120, 280); (120, 120); (520, 650)
  ].

Definition blue_finished_board : board :=
  [ [Some PLAYER2; Some PLAYER2; Some PLAYER2; EMPTY; EMPTY; EMPTY; EMPTY; EMPTY];
    [Some PLAYER2; Some PLAYER2; Some PLAYER2; EMPTY; EMPTY; EMPTY; EMPTY; EMPTY];
    [Some PLAYER2; Some PLAYER2; Some PLAYER2; EMPTY; EMPTY; EMPTY; EMPTY; EMPTY];
    [EMPTY; EMPTY; EMPTY; EMPTY; EMPTY; EMPTY; EMPTY; EMPTY];
    [EMPTY; EMPTY; EMPTY; EMPTY; EMPTY; EMPTY; EMPTY; EMPTY];
    [EMPTY; EMPTY; EMPTY; EMPTY; EMPTY; Some PLAYER1; EMPTY; Some PLAYER1];
    [EMPTY; EMPTY; EMPTY; EMPTY; Some PLAYER1; Some PLAYER1; Some PLAYER1; Some PLAYER1];
    [EMPTY; EMPTY; EMPTY; EMPTY; EMPTY; Some PLAYER1; Some PLAYER1; Some PLAYER1] ].

Definition blue_finished_state : state :=
  mkState blue_finished_board PLAYER2 None ∅ ∅ true (Some PLAYER2) false false.

(** ** Python indexing on lists of known length *)

Lemma valid_iff row col :
  _is_valid_position row col = true ↔ 0 ≤ row < 8 ∧ 0 ≤ col < 8.
Proof.
  unfold _is_valid_position, BOARD_SIZE.
  rewrite andb_true_iff, !bool_decide_eq_true. done.
Qed.

Lemma valid_false_iff row col :
  _is_valid_position row col = false ↔ ¬ (0 ≤ row < 8 ∧ 0 ≤ col < 8).
Proof. rewrite <- valid_iff. destruct (_is_valid_position row col); naive_solver. Qed.

Lemma py_norm_in_range n i :
  0 ≤ i < Z.of_nat n → py_norm n i = Some (Z.to_nat i).
Proof. intros H. unfold py_norm. by rewrite decide_True. Qed.

Lemma py_getitem_in_range {A} (l : list A) i :
  0 ≤ i < Z.of_nat (length l) → py_getitem l i = l !! Z.to_nat i.
Proof. intros H. unfold py_getitem. by rewrite py_norm_in_range. Qed.

Lemma py_setitem_in_range {A} (l : list A) i x :
  0 ≤ i < Z.of_nat (length l) → py_setitem l i x = Some (<[Z.to_nat i := x]> l).
Proof. intros H. unfold py_setitem. by rewrite py_norm_in_range. Qed.

Lemma wf_board_row b i r : wf_board b → b !! i = Some r → length r = 8%nat.
Proof.
  intros [_ Hrows] Hi. rewrite Forall_lookup in Hrows. by eapply Hrows.
Qed.

Lemma cell_at_in_range b row col :
  wf_board b → 0 ≤ row < 8 → 0 ≤ col < 8 →
  cell_at b row col = (b !! Z.to_nat row) ≫= (λ r, r !! Z.to_nat col).
Proof.
  intros Hwf Hr Hc. unfold cell_at.
  rewrite py_getitem_in_range by (destruct Hwf as [-> _]; lia).
  destruct (b !! Z.to_nat row) as [r|] eqn:Hrow; simpl; [|done].
  apply py_getitem_in_range. rewrite (wf_board_row b _ r Hwf Hrow). lia.
Qed.

Lemma cell_at_is_Some b row col :
  wf_board b → 0 ≤ row < 8 → 0 ≤ col < 8 → is_Some (cell_at b row col).
Proof.
  intros Hwf Hr Hc. rewrite cell_at_in_range by done.
  destruct (lookup_lt_is_Some_2 b (Z.to_nat row)) as [r Hrow].
  { destruct Hwf as [-> _]. lia. }
  rewrite Hrow. simpl. apply lookup_lt_is_Some_2.
  rewrite (wf_board_row b _ r Hwf Hrow). lia.
Qed.

Lemma sum_list_with_insert {A} (f : A → nat) (l : list A) i x y :
  l !! i = Some y →
  (sum_list_with f (<[i := x]> l) + f y = sum_list_with f l + f x)%nat.
Proof.
  revert i. induction l as [|a l IH]; intros [|i] Hi; simplify_eq/=.
  - lia.
  - specialize (IH _ Hi). lia.
Qed.

(** The effect of one cell assignment on a well-formed board. *)
Lemma set_cell_spec b row col v :
  wf_board b → 0 ≤ row < 8 → 0 ≤ col < 8 →
  ∃ b', set_cell b row col v = Some b'
    ∧ wf_board b'
    ∧ cell_at b' row col = Some v
    ∧ (∀ row' col', 0 ≤ row' < 8 → 0 ≤ col' < 8 → (row', col') ≠ (row, col) →
         cell_at b' row' col' = cell_at b row' col')
    ∧ (∀ k y, cell_at b row col = Some y →
         (count_cells k b' + (if decide (y = k) then 1 else 0)
          = count_cells k b + (if decide (v = k) then 1 else 0))%nat).
Proof.
  intros Hwf Hr Hc.
  destruct (lookup_lt_is_Some_2 b (Z.to_nat row)) as [r Hrow].
  { destruct Hwf as [-> _]. lia. }
  pose proof (wf_board_row b _ r Hwf Hrow) as Hlen.
  exists (<[Z.to_nat row := <[Z.to_nat col := v]> r]> b).
  assert (wf_board (<[Z.to_nat row := <[Z.to_nat col := v]> r]> b)) as Hwf'.
  { destruct Hwf as [Hl Hrows]. split.
    - by rewrite length_insert.
    - apply Forall_insert; [done|]. by rewrite length_insert. }
  split; [|split; [done|split; [|split]]].
  - unfold set_cell.
    rewrite py_getitem_in_range by (destruct Hwf as [-> _]; lia).
    rewrite Hrow. simpl.
    rewrite py_setitem_in_range by (rewrite Hlen; lia). simpl.
    apply py_setitem_in_range. destruct Hwf as [-> _]. lia.
  - rewrite cell_at_in_range by done.
    rewrite list_lookup_insert_eq by (destruct Hwf as [-> _]; lia). simpl.
    apply list_lookup_insert_eq. rewrite Hlen. lia.
  - intros row' col' Hr' Hc' Hne.
    rewrite !cell_at_in_range by done.
    destruct (decide (Z.to_nat row = Z.to_nat row')) as [Heq|Hneq].
    + rewrite <- Heq.
      rewrite list_lookup_insert_eq by (destruct Hwf as [-> _]; lia).
      rewrite Hrow. simpl. apply list_lookup_insert_ne.
      intros Hcc. apply Hne. f_equal; lia.
    + by rewrite list_lookup_insert_ne.
  - intros k y Hy. rewrite cell_at_in_range in Hy by done.
    rewrite Hrow in Hy. simpl in Hy. unfold count_cells.
    pose proof (sum_list_with_insert (count_row k) b (Z.to_nat row)
                  (<[Z.to_nat col := v]> r) r Hrow) as Hb.
    assert (count_row k (<[Z.to_nat col := v]> r)
            + (if decide (y = k) then 1 else 0)
            = count_row k r + (if decide (v = k) then 1 else 0))%nat as Hrw.
    { unfold count_row.
      by apply (sum_list_with_insert
                  (λ x, if decide (x = k) then 1%nat else 0%nat)). }
    lia.
Qed.

(** ** Move generation on a well-formed board *)

(** Case analysis on a hypothesis [H : d ∈ directions]. *)
Ltac each_direction H :=
  unfold directions in H; rewrite !elem_of_cons, elem_of_nil in H;
  destruct H as [->|[->|[->|[->|[]]]]].

Lemma valid_pos_iff row col : valid (row, col) ↔ 0 ≤ row < 8 ∧ 0 ≤ col < 8.
Proof. apply valid_iff. Qed.

Lemma size_add_le (X : gset pos) (q : pos) : (size (X ∪ {[q]}) ≤ S (size X))%nat.
Proof.
  rewrite size_union_alt.
  assert (size (({[q]} : gset pos) ∖ X) ≤ 1)%nat; [|lia].
  rewrite <- (size_singleton (C := gset pos) q).
  apply subseteq_size. set_solver.
Qed.

Lemma simple_step_spec (b : board) (row col : Z) (X : gset pos) (d : Z * Z) :
  wf_board b →
  ∃ Y : gset pos, simple_step b row col (Some X) d = Some Y
    ∧ (∀ q : pos, q ∈ Y ↔ q ∈ X ∨ (q = shift (row, col) 1 d
                              ∧ simple_target b (row, col) d))
    ∧ (size Y ≤ S (size X))%nat.
Proof.
  intros Hwf. unfold simple_step, simple_target, is_empty, valid, shift. simpl.
  rewrite !Z.mul_1_l.
  destruct (_is_valid_position (row + d.1) (col + d.2)) eqn:Hv.
  - apply valid_iff in Hv as Hv'. destruct Hv' as [Hr Hc].
    destruct (cell_at_is_Some b _ _ Hwf Hr Hc) as [x Hx]. rewrite Hx. simpl.
    case_decide as Hxe.
    + eexists. split; [done|]. split; [|apply size_add_le].
      subst x. set_solver.
    + exists X. split; [done|]. split; [|lia].
      intros q. split; [by left|]. intros [?|(_ & _ & ?)]; [done|congruence].
  - exists X. split; [done|]. split; [|lia].
    intros q. split; [by left|]. intros [?|(_ & ? & _)]; [done|congruence].
Qed.

Lemma jump_step_spec (b : board) (row col : Z) (X : gset pos) (d : Z * Z) :
  wf_board b → valid (row, col) →
  ∃ Y : gset pos, jump_step b row col (Some X) d = Some Y
    ∧ (∀ q : pos, q ∈ Y ↔ q ∈ X ∨ (q = shift (row, col) 2 d
                              ∧ jump_target b (row, col) d))
    ∧ (size Y ≤ S (size X))%nat.
Proof.
  intros Hwf Hp%valid_pos_iff.
  unfold jump_step, jump_target, holds_unit, is_empty, valid, shift. simpl.
  rewrite !Z.mul_1_l.
  replace (row + d.1 + d.1) with (row + 2 * d.1) by lia.
  replace (col + d.2 + d.2) with (col + 2 * d.2) by lia.
  assert (∀ P : Prop, ¬ P → ∀ q, q ∈ X ↔ q ∈ X ∨ (q = (row + 2 * d.1, col + 2 * d.2) ∧ P))
    as Hskip by (intros P HP q; naive_solver).
  destruct (_is_valid_position (row + d.1) (col + d.2)) eqn:Hv.
  - apply valid_iff in Hv as Hv'. destruct Hv' as [Hr Hc].
    destruct (cell_at_is_Some b _ _ Hwf Hr Hc) as [a Ha]. rewrite Ha. simpl.
    case_decide as Hae.
    + destruct (_is_valid_position (row + 2 * d.1) (col + 2 * d.2)) eqn:Hl.
      * apply valid_iff in Hl as Hl'. destruct Hl' as [Hlr Hlc].
        destruct (cell_at_is_Some b _ _ Hwf Hlr Hlc) as [x Hx]. rewrite Hx. simpl.
        case_decide as Hxe.
        -- eexists. split; [done|]. split; [|apply size_add_le].
           subst x. destruct a as [pl|]; [|done].
           intros q. rewrite elem_of_union, elem_of_singleton. naive_solver.
        -- exists X. split; [done|]. split; [|lia].
           apply Hskip. intros (_ & _ & ?). congruence.
      * exists X. split; [done|]. split; [|lia].
        apply Hskip. intros (? & _ & _). congruence.
    + exists X. split; [done|]. split; [|lia].
      apply Hskip. intros (_ & [pl ?] & _). congruence.
  - exists X. split; [done|]. split; [|lia].
    apply Hskip. intros (Hl%valid_iff & _ & _).
    apply valid_false_iff in Hv. apply Hv. lia.
Qed.

Lemma simple_fold_spec (b : board) (row col : Z) (ds : list (Z * Z)) (X : gset pos) :
  wf_board b →
  ∃ Y : gset pos, foldl (simple_step b row col) (Some X) ds = Some Y
    ∧ (∀ q : pos, q ∈ Y ↔ q ∈ X ∨ ∃ d, d ∈ ds ∧ q = shift (row, col) 1 d
                                  ∧ simple_target b (row, col) d)
    ∧ (size Y ≤ size X + length ds)%nat.
Proof.
  intros Hwf. revert X. induction ds as [|d ds IH]; intros X; cbn [foldl length].
  - exists X. split; [done|]. split; [|lia]. set_solver.
  - destruct (simple_step_spec b row col X d Hwf) as (Y1 & -> & Hin1 & Hsz1).
    destruct (IH Y1) as (Y & -> & Hin & Hsz).
    exists Y. split; [done|]. split; [|lia].
    intros q. rewrite Hin, Hin1. setoid_rewrite elem_of_cons. naive_solver.
Qed.

Lemma jump_fold_spec (b : board) (row col : Z) (ds : list (Z * Z)) (X : gset pos) :
  wf_board b → valid (row, col) →
  ∃ Y : gset pos, foldl (jump_step b row col) (Some X) ds = Some Y
    ∧ (∀ q : pos, q ∈ Y ↔ q ∈ X ∨ ∃ d, d ∈ ds ∧ q = shift (row, col) 2 d
                                  ∧ jump_target b (row, col) d)
    ∧ (size Y ≤ size X + length ds)%nat.
Proof.
  intros Hwf Hp. revert X. induction ds as [|d ds IH]; intros X; cbn [foldl length].
  - exists X. split; [done|]. split; [|lia]. set_solver.
  - destruct (jump_step_spec b row col X d Hwf Hp) as (Y1 & -> & Hin1 & Hsz1).
    destruct (IH Y1) as (Y & -> & Hin & Hsz).
    exists Y. split; [done|]. split; [|lia].
    intros q. rewrite Hin, Hin1. setoid_rewrite elem_of_cons. naive_solver.
Qed.

Lemma simple_moves_spec (b : board) (row col : Z) :
  wf_board b →
  ∃ Y : gset pos, _get_simple_moves b row col = Some Y
    ∧ (∀ q : pos, q ∈ Y ↔ ∃ d, d ∈ directions ∧ q = shift (row, col) 1 d
                          ∧ simple_target b (row, col) d).
Proof.
  intros Hwf.
  destruct (simple_fold_spec b row col directions ∅ Hwf) as (Y & HY & Hin & _).
  exists Y. split; [done|]. intros q. rewrite Hin.
  pose proof (not_elem_of_empty (C := gset pos) q). naive_solver.
Qed.

Lemma jump_moves_spec (b : board) (row col : Z) :
  wf_board b → valid (row, col) →
  ∃ Y : gset pos, _get_jump_moves b row col = Some Y
    ∧ (∀ q : pos, q ∈ Y ↔ ∃ d, d ∈ directions ∧ q = shift (row, col) 2 d
                          ∧ jump_target b (row, col) d)
    ∧ (size Y ≤ 4)%nat.
Proof.
  intros Hwf Hp.
  destruct (jump_fold_spec b row col directions ∅ Hwf Hp) as (Y & HY & Hin & Hsz).
  exists Y. unfold _get_jump_moves.
  apply valid_pos_iff in Hp as [Hr Hc].
  destruct (cell_at_is_Some b _ _ Hwf Hr Hc) as [x ->]. simpl.
  split; [done|]. split.
  - intros q. rewrite Hin.
    pose proof (not_elem_of_empty (C := gset pos) q). naive_solver.
  - rewrite size_empty in Hsz. simpl in Hsz. lia.
Qed.

(** ** Move application on a well-formed board *)

Lemma perform_simple_move_eq b fr fc tr tc :
  _perform_simple_move b fr fc tr tc = _perform_jump b fr fc tr tc.
Proof. reflexivity. Qed.

Lemma perform_jump_spec (b : board) (fr fc tr tc : Z) :
  wf_board b → valid (fr, fc) → valid (tr, tc) → (tr, tc) ≠ (fr, fc) →
  ∃ (b' : board) (v : cell),
    cell_at b fr fc = Some v
    ∧ _perform_jump b fr fc tr tc = Some b'
    ∧ wf_board b'
    ∧ cell_at b' tr tc = Some v
    ∧ cell_at b' fr fc = Some EMPTY
    ∧ (∀ q : pos, valid q → q ≠ (fr, fc) → q ≠ (tr, tc) →
         cell_at b' q.1 q.2 = cell_at b q.1 q.2)
    ∧ (is_empty b (tr, tc) → ∀ k, count_cells k b' = count_cells k b).
Proof.
  intros Hwf [Hfr Hfc]%valid_pos_iff [Htr Htc]%valid_pos_iff Hne.
  destruct (cell_at_is_Some b fr fc Hwf Hfr Hfc) as [v Hv].
  destruct (set_cell_spec b tr tc v Hwf Htr Htc)
    as (b1 & Hb1 & Hwf1 & Hto1 & Hoth1 & Hcnt1).
  destruct (set_cell_spec b1 fr fc EMPTY Hwf1 Hfr Hfc)
    as (b2 & Hb2 & Hwf2 & Hfrom2 & Hoth2 & Hcnt2).
  assert (cell_at b1 fr fc = Some v) as Hfrom1.
  { rewrite Hoth1 by (done || congruence). done. }
  exists b2, v. split; [done|]. split.
  { unfold _perform_jump. rewrite Hv. simpl. rewrite Hb1. simpl. done. }
  split; [done|]. split.
  { rewrite Hoth2 by done. done. }
  split; [done|]. split.
  - intros [r c] [Hr Hc]%valid_pos_iff Hnf Hnt. simpl.
    rewrite Hoth2 by done. by apply Hoth1.
  - intros Hempty k. unfold is_empty in Hempty. simpl in Hempty.
    specialize (Hcnt1 k _ Hempty). specialize (Hcnt2 k _ Hfrom1).
    unfold EMPTY in *. repeat case_decide; lia.
Qed.

(** Every jump target lies two steps away in one of the four directions,
    beyond a cell that holds a unit; it is in bounds, empty and not the
    source cell. *)
Lemma jump_target_facts (b : board) (p : pos) (d : Z * Z) :
  d ∈ directions → jump_target b p d →
  valid (shift p 2 d) ∧ is_empty b (shift p 2 d) ∧ shift p 2 d ≠ p
  ∧ shift p 1 d ≠ p ∧ shift p 1 d ≠ shift p 2 d.
Proof.
  intros Hd (Hv & _ & He). split; [done|]. split; [done|].
  destruct p as [row col]. unfold shift. simpl.
  each_direction Hd; simpl; (split; [|split]); intros [=]; lia.
Qed.

Lemma valid_between (p : pos) (d : Z * Z) :
  valid p → valid (shift p 2 d) → valid (shift p 1 d).
Proof.
  destruct p as [row col]. unfold shift. simpl.
  rewrite !valid_pos_iff. lia.
Qed.

Lemma wf_start_board : wf_board start_board.
Proof. split; [reflexivity|]. repeat constructor. Defined.

Lemma wf_hop_board : wf_board hop_board.
Proof. split; [reflexivity|]. repeat constructor. Defined.

Lemma initialize_board_eq : _initialize_board = Some start_board.
Proof. reflexivity. Qed.

Lemma init_eq : init = Some start_state.
Proof. reflexivity. Qed.

(** ** Simple moves *)

(** C2, as stated, fails: on the opening board the cell (3, 3) is in bounds
    and empty, yet [_get_simple_moves] returns its four empty neighbours. *)
Lemma simple_moves_empty_source_counterexample :
  ¬ (∀ (b : board) (row col : Z),
       wf_board b → valid (row, col) → cell_at b row col = Some EMPTY →
       _get_simple_moves b row col = Some ∅).
Proof.
  intros H.
  specialize (H start_board 3 3 wf_start_board eq_refl eq_refl).
  vm_compute in H. discriminate H.
Qed.

(** C2, amended: whatever the cell at [(row, col)] holds, a unit or nothing,
    [_get_simple_moves] returns exactly the orthogonally adjacent cells that
    are in bounds and empty. *)
Theorem simple_moves_are_empty_neighbours (b : board) (row col : Z) :
  wf_board b →
  ∃ Y : gset pos,
    _get_simple_moves b row col = Some Y
    ∧ ∀ q : pos, q ∈ Y ↔
        ∃ d, d ∈ directions ∧ q = shift (row, col) 1 d
             ∧ valid q ∧ is_empty b q.
Proof.
  intros Hwf. destruct (simple_moves_spec b row col Hwf) as (Y & HY & Hin).
  exists Y. split; [done|]. intros q. rewrite Hin. unfold simple_target.
  naive_solver.
Qed.

Lemma simple_moves_are_empty_neighbours_witness :
  wf_board start_board
  ∧ ∃ Y : gset pos,
      _get_simple_moves start_board 3 3 = Some Y
      ∧ ∀ q : pos, q ∈ Y ↔
          ∃ d, d ∈ directions ∧ q = shift (3, 3) 1 d
               ∧ valid q ∧ is_empty start_board q.
Proof.
  split; [exact wf_start_board|].
  apply (simple_moves_are_empty_neighbours start_board 3 3). exact wf_start_board.
Defined.

(** ** Jump moves *)



Lemma jump_target_agree (b1 b2 : board) (p : pos) (d : Z * Z) :
  d ∈ directions → valid p →
  (∀ q : pos, valid q → q ≠ p → cell_at b1 q.1 q.2 = cell_at b2 q.1 q.2) →
  jump_target b1 p d → jump_target b2 p d.
Proof.
  intros Hd Hp Hagree Hj.
  destruct (jump_target_facts b1 p d Hd Hj) as (Hv & _ & Hne2 & Hne1 & _).
  destruct Hj as (_ & [pl Hu] & He).
  pose proof (valid_between p d Hp Hv) as Hv1.
  split; [done|]. split.
  - exists pl. by rewrite <- Hagree.
  - unfold is_empty. by rewrite <- Hagree.
Qed.

(** C10: [_get_jump_moves] does not depend on what the queried cell holds:
    on two boards that agree everywhere except possibly at the in-bounds
    position [(row, col)] it returns the same set; and the queried cell may be
    empty while the set is not. *)
Theorem jump_moves_ignore_source_cell :
  (∀ (b1 b2 : board) (row col : Z),
     wf_board b1 → wf_board b2 → valid (row, col) →
     (∀ q : pos, valid q → q ≠ (row, col) →
        cell_at b1 q.1 q.2 = cell_at b2 q.1 q.2) →
     is_Some (_get_jump_moves b1 row col)
     ∧ _get_jump_moves b1 row col = _get_jump_moves b2 row col)
  ∧ (∃ (b : board) (row col : Z) (Y : gset pos),
       wf_board b ∧ valid (row, col) ∧ cell_at b row col = Some EMPTY
       ∧ _get_jump_moves b row col = Some Y ∧ Y ≠ ∅).
Proof.
  split.
  - intros b1 b2 row col Hwf1 Hwf2 Hp Hagree.
    destruct (jump_moves_spec b1 row col Hwf1 Hp) as (Y1 & HY1 & Hin1 & _).
    destruct (jump_moves_spec b2 row col Hwf2 Hp) as (Y2 & HY2 & Hin2 & _).
    rewrite HY1, HY2. split; [by eexists|]. f_equal. apply set_eq. intros q.
    rewrite Hin1, Hin2.
    split; intros (d & Hd & -> & Hj); exists d; (split; [done|]);
      (split; [done|]).
    + by apply (jump_target_agree b1 b2).
    + apply (jump_target_agree b2 b1); [done..| |done].
      intros q Hq Hne. symmetry. by apply Hagree.
  - exists hop_board, 1, 1, {[ (3, 1) ]}.
    split; [exact wf_hop_board|]. split; [reflexivity|].
    split; [reflexivity|]. split; [by vm_compute|].
    intros H. assert ((3, 1) ∈ (∅ : gset pos)) as Hin by (rewrite <- H; set_solver).
    set_solver.
Qed.

Lemma wf_hop_board_refilled : wf_board hop_board_refilled.
Proof. split; [reflexivity|]. repeat constructor. Defined.

Lemma jump_moves_ignore_source_cell_witness :
  is_Some (_get_jump_moves hop_board 1 1)
  ∧ _get_jump_moves hop_board 1 1 = _get_jump_moves hop_board_refilled 1 1.
Proof.
  apply (proj1 jump_moves_ignore_source_cell hop_board hop_board_refilled 1 1).
  - exact wf_hop_board.
  - exact wf_hop_board_refilled.
  - reflexivity.
  - intros [row col] [Hr Hc]%valid_pos_iff Hne. simpl.
    assert (row = 0 ∨ row = 1 ∨ row = 2 ∨ row = 3 ∨ row = 4 ∨ row = 5
            ∨ row = 6 ∨ row = 7) as Hrow by lia.
    assert (col = 0 ∨ col = 1 ∨ col = 2 ∨ col = 3 ∨ col = 4 ∨ col = 5
            ∨ col = 6 ∨ col = 7) as Hcol by lia.
    destruct Hrow as [->|[->|[->|[->|[->|[->|[->| ->]]]]]]];
      destruct Hcol as [->|[->|[->|[->|[->|[->|[->| ->]]]]]]];
      first [reflexivity | exfalso; apply Hne; reflexivity].
Defined.

(** ** Jumps do not capture *)

(** C5: a jump from [(fr, fc)] to one of its jump targets [(tr, tc)] succeeds;
    the target cell takes the unit that was at the source, the source becomes
    empty, and every other cell keeps its content, in particular the
    jumped-over cell, which still holds the unit it held; no unit is added or
    removed. *)
Theorem jump_moves_only_the_jumper (b : board) (fr fc tr tc : Z) (Y : gset pos) :
  wf_board b → valid (fr, fc) →
  _get_jump_moves b fr fc = Some Y → (tr, tc) ∈ Y →
  ∃ b' : board,
    _perform_jump b fr fc tr tc = Some b'
    ∧ wf_board b'
    ∧ cell_at b' tr tc = cell_at b fr fc
    ∧ cell_at b' fr fc = Some EMPTY
    ∧ (∀ q : pos, valid q → q ≠ (fr, fc) → q ≠ (tr, tc) →
         cell_at b' q.1 q.2 = cell_at b q.1 q.2)
    ∧ (∃ d, d ∈ directions ∧ (tr, tc) = shift (fr, fc) 2 d
            ∧ holds_unit b (shift (fr, fc) 1 d)
            ∧ cell_at b' (shift (fr, fc) 1 d).1 (shift (fr, fc) 1 d).2
              = cell_at b (shift (fr, fc) 1 d).1 (shift (fr, fc) 1 d).2)
    ∧ (∀ k : cell, count_cells k b' = count_cells k b).
Proof.
  intros Hwf Hp HY Hin.
  destruct (jump_moves_spec b fr fc Hwf Hp) as (Y' & HY' & Hin' & _).
  assert (Y' = Y) as -> by congruence.
  apply Hin' in Hin as (d & Hd & Heq & Hj).
  destruct (jump_target_facts b (fr, fc) d Hd Hj)
    as (Hv & He & Hne2 & Hne1 & Hne12).
  rewrite <- Heq in Hv, He, Hne2, Hne12.
  destruct (perform_jump_spec b fr fc tr tc Hwf Hp Hv Hne2)
    as (b' & v & Hsrc & Hjump & Hwf' & Hto & Hfrom & Hoth & Hcnt).
  exists b'. split; [done|]. split; [done|]. split; [congruence|].
  split; [done|]. split; [done|]. split; [|by apply Hcnt].
  exists d. split; [done|]. split; [done|]. split; [by destruct Hj as (_ & ? & _)|].
  apply Hoth; [|done..].
  apply valid_between; [done|]. by rewrite <- Heq.
Qed.

Lemma jump_moves_only_the_jumper_witness :
  ∃ b' : board,
    _perform_jump start_board 1 1 1 3 = Some b'
    ∧ wf_board b'
    ∧ cell_at b' 1 3 = cell_at start_board 1 1
    ∧ cell_at b' 1 1 = Some EMPTY
    ∧ (∀ q : pos, valid q → q ≠ (1, 1) → q ≠ (1, 3) →
         cell_at b' q.1 q.2 = cell_at start_board q.1 q.2)
    ∧ (∃ d, d ∈ directions ∧ (1, 3) = shift (1, 1) 2 d
            ∧ holds_unit start_board (shift (1, 1) 1 d)
            ∧ cell_at b' (shift (1, 1) 1 d).1 (shift (1, 1) 1 d).2
              = cell_at start_board (shift (1, 1) 1 d).1 (shift (1, 1) 1 d).2)
    ∧ (∀ k : cell, count_cells k b' = count_cells k start_board).
Proof.
  apply (jump_moves_only_the_jumper start_board 1 1 1 3 {[ (1, 3); (3, 1) ]}).
  - exact wf_start_board.
  - reflexivity.
  - vm_compute. reflexivity.
  - vm_compute. reflexivity.
Defined.

(** ** Win detection *)

Lemma elem_of_scan_order (p : pos) : p ∈ scan_order ↔ valid p.
Proof.
  destruct p as [row col]. rewrite valid_pos_iff.
  unfold scan_order, range, BOARD_SIZE. rewrite list_elem_of_bind. split.
  - intros (r & (c & Hp%list_elem_of_singleton & Hc%elem_of_seqZ)%list_elem_of_bind
              & Hr%elem_of_seqZ).
    simplify_eq. lia.
  - intros [Hr Hc]. exists row. split; [|apply elem_of_seqZ; lia].
    apply list_elem_of_bind. exists col.
    split; [by apply list_elem_of_singleton|apply elem_of_seqZ; lia].
Qed.

Lemma scan_fold_spec (b : board) (ps : list pos) (l1 l2 : list pos) :
  wf_board b → Forall valid ps →
  foldl (scan_step b) (Some (l1, l2)) ps
  = Some (l1 ++ filter (λ p : pos, cell_at b p.1 p.2 = Some (Some PLAYER1)) ps,
          l2 ++ filter (λ p : pos, cell_at b p.1 p.2 = Some (Some PLAYER2)) ps).
Proof.
  intros Hwf Hps. revert l1 l2.
  induction Hps as [|p ps Hp Hps IH]; intros l1 l2; cbn [foldl].
  - by rewrite !filter_nil, !app_nil_r.
  - destruct p as [row col]. apply valid_pos_iff in Hp as Hp'.
    destruct Hp' as [Hr Hc].
    destruct (cell_at_is_Some b row col Hwf Hr Hc) as [x Hx].
    unfold scan_step at 2. simpl. rewrite Hx. simpl.
    rewrite !filter_cons. simpl. rewrite Hx.
    repeat case_decide; simplify_eq; rewrite IH, <- ?app_assoc; done.
Qed.

Lemma home_area_iff (row col : Z) (pl : player) :
  _is_in_home_area row col pl = true
  ↔ if decide (pl = PLAYER1) then 5 ≤ row ≤ 7 ∧ 5 ≤ col ≤ 7
    else 0 ≤ row ≤ 2 ∧ 0 ≤ col ≤ 2.
Proof.
  unfold _is_in_home_area.
  case_decide; rewrite andb_true_iff, !bool_decide_eq_true; done.
Qed.

Lemma forallb_units (b : board) (pl : player) (lo hi : Z) (f : pos → bool) :
  (∀ p : pos, f p = true ↔ lo ≤ p.1 ≤ hi ∧ lo ≤ p.2 ≤ hi) →
  forallb f (filter (λ p : pos, cell_at b p.1 p.2 = Some (Some pl)) scan_order)
    = true
  ↔ all_within b pl lo hi.
Proof.
  intros Hf. rewrite forallb_forall. unfold all_within. split.
  - intros H p Hp Hc. apply Hf, H, list_elem_of_In, list_elem_of_filter.
    split; [done|]. by apply elem_of_scan_order.
  - intros H p [Hc Hp%elem_of_scan_order]%list_elem_of_In%list_elem_of_filter.
    apply Hf. by apply H.
Qed.

Lemma check_win_spec (b : board) :
  wf_board b →
  ∃ w : option player,
    _check_win_condition b = Some w
    ∧ (w = Some PLAYER1 ↔ all_within b PLAYER1 5 7)
    ∧ (w = Some PLAYER2 ↔ ¬ all_within b PLAYER1 5 7 ∧ all_within b PLAYER2 0 2)
    ∧ (w = None ↔ ¬ all_within b PLAYER1 5 7 ∧ ¬ all_within b PLAYER2 0 2).
Proof.
  intros Hwf. unfold _check_win_condition.
  rewrite (scan_fold_spec b scan_order [] [] Hwf)
    by (apply Forall_forall; intros p; apply elem_of_scan_order).
  simpl.
  pose proof (forallb_units b PLAYER1 5 7
                (λ p : pos, _is_in_home_area p.1 p.2 PLAYER1)
                (λ p, home_area_iff p.1 p.2 PLAYER1)) as H1.
  pose proof (forallb_units b PLAYER2 0 2
                (λ p : pos, _is_in_home_area p.1 p.2 PLAYER2)
                (λ p, home_area_iff p.1 p.2 PLAYER2)) as H2.
  destruct (forallb _ (filter (λ p : pos, cell_at b p.1 p.2 = Some (Some PLAYER1)) _)).
  - eexists. split; [done|]. naive_solver.
  - destruct (forallb _ _); (eexists; split; [done|]); naive_solver.
Qed.

(** C6: [_check_win_condition] returns [PLAYER1] exactly when every
    [PLAYER1] unit lies in rows 5-7, columns 5-7; otherwise it returns
    [PLAYER2] exactly when every [PLAYER2] unit lies in rows 0-2, columns 0-2;
    when both hold the answer is [PLAYER1]. *)
Theorem check_win_player1_first (b : board) :
  wf_board b →
  ∃ w : option player,
    _check_win_condition b = Some w
    ∧ (w = Some PLAYER1 ↔ all_within b PLAYER1 5 7)
    ∧ (¬ all_within b PLAYER1 5 7 →
         (w = Some PLAYER2 ↔ all_within b PLAYER2 0 2))
    ∧ (all_within b PLAYER1 5 7 ∧ all_within b PLAYER2 0 2 → w = Some PLAYER1).
Proof.
  intros Hwf. destruct (check_win_spec b Hwf) as (w & Hw & H1 & H2 & H3).
  exists w. split; [done|]. naive_solver.
Qed.

Lemma wf_crossed_board : wf_board crossed_board.
Proof. split; [reflexivity|]. repeat constructor. Defined.

Lemma check_win_player1_first_witness :
  ∃ w : option player,
    _check_win_condition crossed_board = Some w
    ∧ (w = Some PLAYER1 ↔ all_within crossed_board PLAYER1 5 7)
    ∧ (¬ all_within crossed_board PLAYER1 5 7 →
         (w = Some PLAYER2 ↔ all_within crossed_board PLAYER2 0 2))
    ∧ (all_within crossed_board PLAYER1 5 7 ∧ all_within crossed_board PLAYER2 0 2
       → w = Some PLAYER1).
Proof. apply (check_win_player1_first crossed_board). exact wf_crossed_board. Defined.

Example check_win_crossed : _check_win_condition crossed_board = Some (Some PLAYER1).
Proof. vm_compute. reflexivity. Qed.

Example check_win_start : _check_win_condition start_board = Some None.
Proof. vm_compute. reflexivity. Qed.

(** ** Turn end *)

Lemma end_turn_spec (s : state) :
  wf_board (st_board s) →
  ∃ (w : option player) (s' : state),
    _check_win_condition (st_board s) = Some w
    ∧ _end_turn s = Some s'
    ∧ st_board s' = st_board s
    ∧ selected_unit s' = None
    ∧ possible_moves s' = ∅
    ∧ possible_jumps s' = ∅
    ∧ in_jump_sequence s' = false
    ∧ button_hovered s' = button_hovered s
    ∧ (w = None →
         current_player s' = other_player (current_player s)
         ∧ game_over s' = game_over s ∧ winner s' = winner s)
    ∧ (∀ pl, w = Some pl →
         current_player s' = current_player s
         ∧ game_over s' = true ∧ winner s' = Some pl).
Proof.
  intros Hwf. destruct (check_win_spec _ Hwf) as (w & Hw & _).
  unfold _end_turn. cbn -[_check_win_condition]. rewrite Hw. cbn.
  exists w. destruct w as [pl|]; eexists; (split; [done|]); cbn;
    repeat split; (done || congruence).
Qed.

(** C8: once [game_over] is set, a click anywhere leaves the whole state as
    it is. *)
Theorem click_after_game_over_is_noop (s : state) (mouse_pos : Z * Z) :
  game_over s = true → handle_click s mouse_pos = Some s.
Proof. intros Hover. unfold handle_click. by rewrite Hover. Qed.

Lemma click_after_game_over_is_noop_witness :
  handle_click won_state (300, 100) = Some won_state.
Proof. apply (click_after_game_over_is_noop won_state (300, 100)). reflexivity. Defined.



Example end_turn_button_switches_player :
  handle_click chain_state (520, 650)
  = Some (mkState hop_board PLAYER2 None ∅ ∅ false None false false).
Proof. vm_compute. reflexivity. Qed.

(** ** The invariant of reachable states *)

Lemma state_inv_start : state_inv start_state.
Proof.
  split; [exact wf_start_board|]. split; [reflexivity|]. split; [reflexivity|].
  split; [|split]; simpl; [naive_solver|done..].
Qed.

Lemma state_inv_deselect (s : state) : state_inv s → state_inv (_deselect_unit s).
Proof.
  intros (Hwf & H1 & H2 & Hwin & Hover & _).
  split; [done|]. split; [done|]. split; [done|]. split; [done|].
  split; simpl; done.
Qed.

Lemma state_inv_motion (s : state) (mouse_pos : Z * Z) :
  state_inv s → state_inv (handle_mouse_motion s mouse_pos).
Proof.
  intros Hinv. unfold handle_mouse_motion.
  destruct (in_jump_sequence s) eqn:Hseq; [|done].
  destruct Hinv as (Hwf & H1 & H2 & Hwin & Hover & Hsel).
  split; [done|]. split; [done|]. split; [done|]. split; [done|].
  split; simpl; [|done].
  intros Hg. destruct (Hover Hg) as [? ?]. split; congruence.
Qed.

Lemma end_turn_inv (s : state) :
  wf_board (st_board s) →
  count_cells (Some PLAYER1) (st_board s) = 9%nat →
  count_cells (Some PLAYER2) (st_board s) = 9%nat →
  (winner s ≠ None ↔ game_over s = true) →
  ∃ s', _end_turn s = Some s' ∧ state_inv s'.
Proof.
  intros Hwf H1 H2 Hwin.
  destruct (end_turn_spec s Hwf)
    as (w & s' & _ & Hs' & Hb & Hsel & _ & _ & Hseq & _ & Hnone & Hsome).
  exists s'. split; [done|]. unfold state_inv. rewrite Hb, Hsel, Hseq.
  split; [done|]. split; [done|]. split; [done|]. split; [|done].
  destruct w as [pl|].
  - destruct (Hsome pl eq_refl) as (_ & -> & ->). done.
  - destruct (Hnone eq_refl) as (_ & -> & ->). done.
Qed.

Lemma select_unit_inv (s : state) (row col : Z) :
  state_inv s → game_over s = false → valid (row, col) →
  ∃ s', select_unit s row col = Some s' ∧ state_inv s'.
Proof.
  intros (Hwf & H1 & H2 & Hwin & _ & _) Hover Hp.
  destruct (simple_moves_spec (st_board s) row col Hwf) as (Y1 & HY1 & Hin1).
  destruct (jump_moves_spec (st_board s) row col Hwf Hp) as (Y2 & HY2 & Hin2 & _).
  unfold select_unit. rewrite HY1, HY2. cbn. eexists. split; [done|].
  unfold state_inv. cbn.
  split; [done|]. split; [done|]. split; [done|]. split; [done|].
  split; [congruence|]. intros p [= <-]. split; [done|].
  intros q [Hq|Hq]%elem_of_union.
  - apply Hin1 in Hq as (d & _ & -> & Hv & He). done.
  - apply Hin2 in Hq as (d & Hd & -> & Hj).
    destruct (jump_target_facts _ _ _ Hd Hj) as (Hv & He & _). done.
Qed.

(** Moving the selected unit onto one of the recorded targets keeps the
    board well-formed and the unit counts unchanged. *)
Lemma move_inv (s : state) (sr sc row col : Z) :
  state_inv s → selected_unit s = Some (sr, sc) →
  (row, col) ≠ (sr, sc) →
  (row, col) ∈ possible_moves s ∪ possible_jumps s →
  ∃ b' : board,
    _perform_jump (st_board s) sr sc row col = Some b'
    ∧ wf_board b'
    ∧ count_cells (Some PLAYER1) b' = 9%nat
    ∧ count_cells (Some PLAYER2) b' = 9%nat.
Proof.
  intros (Hwf & H1 & H2 & _ & _ & Hsel) Hs Hne Hin.
  destruct (Hsel _ Hs) as (Hvs & Htargets).
  destruct (Htargets _ Hin) as (Hvt & Het).
  destruct (perform_jump_spec (st_board s) sr sc row col Hwf Hvs Hvt Hne)
    as (b' & v & _ & Hjump & Hwf' & _ & _ & _ & Hcnt).
  exists b'. split; [done|]. split; [done|].
  rewrite !Hcnt by done. done.
Qed.

Lemma board_click_inv (s : state) (row col : Z) :
  state_inv s → game_over s = false → valid (row, col) →
  ∃ s', board_click s row col = Some s' ∧ state_inv s'.
Proof.
  intros Hinv Hover Hp.
  pose proof Hinv as (Hwf & H1 & H2 & Hwin & Hov & Hsel).
  apply valid_pos_iff in Hp as Hp'. destruct Hp' as [Hr Hc].
  destruct (cell_at_is_Some (st_board s) row col Hwf Hr Hc) as [x Hx].
  unfold board_click. destruct (selected_unit s) as [[sr sc]|] eqn:Hs.
  - case_decide as Hsame; [eexists; split; [done|]; by apply state_inv_deselect|].
    case_decide as Hjump.
    { destruct (move_inv s sr sc row col Hinv Hs Hsame)
        as (b' & -> & Hwf' & H1' & H2'); [set_solver|]. cbn.
      destruct (jump_moves_spec b' row col Hwf' Hp) as (Y & -> & HinY & _). cbn.
      case_decide as Hmore.
      - eexists. split; [done|]. unfold state_inv. cbn.
        split; [done|]. split; [done|]. split; [done|]. split; [done|].
        split; [congruence|]. intros p [= <-]. split; [done|].
        intros q [Hq|Hq]%elem_of_union; [set_solver|].
        apply HinY in Hq as (d & Hd & -> & Hj).
        destruct (jump_target_facts _ _ _ Hd Hj) as (Hv & He & _). done.
      - by apply end_turn_inv. }
    destruct (bool_decide ((row, col) ∈ possible_moves s)
              && negb (in_jump_sequence s)) eqn:Hmove.
    { apply andb_true_iff in Hmove as [Hm%bool_decide_eq_true _].
      rewrite perform_simple_move_eq.
      destruct (move_inv s sr sc row col Hinv Hs Hsame)
        as (b' & -> & Hwf' & H1' & H2'); [set_solver|]. cbn.
      by apply end_turn_inv. }
    rewrite Hx. cbn.
    destruct (bool_decide (x = Some (current_player s))
              && negb (in_jump_sequence s)); [by apply select_unit_inv|].
    destruct (negb (in_jump_sequence s)).
    + eexists; split; [done|]; by apply state_inv_deselect.
    + by eexists.
  - rewrite Hx. cbn. case_decide; [by apply select_unit_inv|by eexists].
Qed.

(** A click never raises and keeps the invariant. *)
Lemma handle_click_inv (s : state) (mouse_pos : Z * Z) :
  state_inv s → ∃ s', handle_click s mouse_pos = Some s' ∧ state_inv s'.
Proof.
  intros Hinv. unfold handle_click.
  destruct (game_over s) eqn:Hover; [by eexists|].
  destruct (in_jump_sequence s && _is_point_in_button mouse_pos).
  { destruct Hinv as (Hwf & H1 & H2 & Hwin & _). by apply end_turn_inv. }
  cbv zeta.
  destruct (_is_valid_position _ _) eqn:Hv; cbn; [|by eexists].
  by apply board_click_inv.
Qed.

Lemma reachable_inv (s : state) : reachable s → state_inv s.
Proof.
  induction 1 as [s Hinit|s mouse_pos s' _ IH Hclick|s mouse_pos _ IH].
  - rewrite init_eq in Hinit. injection Hinit as <-. exact state_inv_start.
  - destruct (handle_click_inv s mouse_pos IH) as (s'' & Hs'' & Hinv).
    congruence.
  - by apply state_inv_motion.
Qed.

Lemma reachable_click_total (s : state) (mouse_pos : Z * Z) :
  reachable s → is_Some (handle_click s mouse_pos).
Proof.
  intros Hinv%reachable_inv.
  destruct (handle_click_inv s mouse_pos Hinv) as (s' & -> & _). by eexists.
Qed.

Lemma reachable_winner_iff_game_over (s : state) :
  reachable s → winner s ≠ None ↔ game_over s = true.
Proof. intros (_ & _ & _ & Hwin & _)%reachable_inv. done. Qed.

Lemma reachable_chain_state : reachable chain_state.
Proof.
  apply (reach_click picked_state (300, 100)); [|by vm_compute].
  apply (reach_click start_state (100, 100)); [|by vm_compute].
  apply reach_init. reflexivity.
Defined.

(** C1: every state reachable from the initial one by clicks (selections,
    simple moves, jumps, End Turn) and mouse motion has exactly 9 cells
    holding a [PLAYER1] unit and exactly 9 holding a [PLAYER2] unit. *)
Theorem unit_count_invariant (s : state) :
  reachable s →
  count_cells (Some PLAYER1) (st_board s) = 9%nat
  ∧ count_cells (Some PLAYER2) (st_board s) = 9%nat.
Proof. intros (_ & H1 & H2 & _)%reachable_inv. done. Qed.

Lemma unit_count_invariant_witness :
  count_cells (Some PLAYER1) (st_board chain_state) = 9%nat
  ∧ count_cells (Some PLAYER2) (st_board chain_state) = 9%nat.
Proof. apply (unit_count_invariant chain_state). exact reachable_chain_state. Defined.

(** ** Clicks on the board *)

Lemma handle_click_board (s : state) (mouse_pos : Z * Z) :
  game_over s = false →
  in_jump_sequence s && _is_point_in_button mouse_pos = false →
  valid (clicked_cell mouse_pos) →
  handle_click s mouse_pos
  = board_click s (clicked_cell mouse_pos).1 (clicked_cell mouse_pos).2.
Proof.
  intros Hover Hbutton Hv. unfold handle_click.
  rewrite Hover, Hbutton. cbv zeta.
  unfold valid, clicked_cell in Hv. simpl in Hv. by rewrite Hv.
Qed.

(** The End Turn button lies below the board: a click on it is never a click
    on a cell. *)
Lemma button_off_board (mouse_pos : Z * Z) :
  _is_point_in_button mouse_pos = true → ¬ valid (clicked_cell mouse_pos).
Proof.
  unfold _is_point_in_button, valid, clicked_cell. simpl.
  intros [_ Hy%bool_decide_eq_true]%andb_true_iff [Hrow _]%valid_iff.
  unfold BUTTON_Y, BOARD_HEIGHT, BOARD_SIZE, SQUARE_SIZE in *.
  assert (8 ≤ mouse_pos.2 `div` 80); [|lia].
  apply Z.div_le_lower_bound; lia.
Qed.



Example jump_click_enters_chain :
  handle_click picked_state (300, 100) = Some chain_state.
Proof. vm_compute. reflexivity. Qed.

(** The empty branch of the jump logic (line 226 of the source), run on a
    state whose recorded jump set holds a cell with no unit next to it. *)
Example jump_click_with_no_further_jump :
  handle_click
    (mkState start_board PLAYER1 (Some (1, 1)) ∅ {[ (3, 4) ]}
             false None false false)
    (350, 250)
  = Some (mkState
            [ [Some PLAYER1; Some PLAYER1; Some PLAYER1; EMPTY; EMPTY; EMPTY; EMPTY; EMPTY];
              [Some PLAYER1; EMPTY; Some PLAYER1; EMPTY; EMPTY; EMPTY; EMPTY; EMPTY];
              [Some PLAYER1; Some PLAYER1; Some PLAYER1; EMPTY; EMPTY; EMPTY; EMPTY; EMPTY];
              [EMPTY; EMPTY; EMPTY; EMPTY; Some PLAYER1; EMPTY; EMPTY; EMPTY];
              [EMPTY; EMPTY; EMPTY; EMPTY; EMPTY; EMPTY; EMPTY; EMPTY];
              [EMPTY; EMPTY; EMPTY; EMPTY; EMPTY; Some PLAYER2; Some PLAYER2; Some PLAYER2];
              [EMPTY; EMPTY; EMPTY; EMPTY; EMPTY; Some PLAYER2; Some PLAYER2; Some PLAYER2];
              [EMPTY; EMPTY; EMPTY; EMPTY; EMPTY; Some PLAYER2; Some PLAYER2; Some PLAYER2] ]
            PLAYER2 None ∅ ∅ false None false false).
Proof. vm_compute. reflexivity. Qed.

Lemma opposite_direction (d : Z * Z) :
  d ∈ directions → (- d.1, - d.2) ∈ directions.
Proof.
  intros Hd. each_direction Hd; simpl; set_solver.
Qed.

(** After a jump to a computed target, the hop back over the same unit is
    available: the jump set at the landing cell contains the source cell, so
    in play the jump logic always continues the chain. *)
Lemma jump_back_available (b : board) (fr fc tr tc : Z) (Y : gset pos) (b' : board) :
  wf_board b → valid (fr, fc) →
  _get_jump_moves b fr fc = Some Y → (tr, tc) ∈ Y →
  _perform_jump b fr fc tr tc = Some b' →
  ∃ Y' : gset pos, _get_jump_moves b' tr tc = Some Y' ∧ (fr, fc) ∈ Y'.
Proof.
  intros Hwf Hp HY Hin Hjump.
  destruct (jump_moves_spec b fr fc Hwf Hp) as (Y0 & HY0 & Hin0 & _).
  assert (Y0 = Y) as -> by congruence.
  apply Hin0 in Hin as (d & Hd & Heq & Hj).
  destruct (jump_target_facts b (fr, fc) d Hd Hj)
    as (Hv & He & Hne2 & Hne1 & Hne12).
  pose proof (valid_between (fr, fc) d Hp Hv) as Hv1.
  destruct Hj as (_ & [pl Hu] & _).
  rewrite <- Heq in Hv, He, Hne2, Hne12.
  destruct (perform_jump_spec b fr fc tr tc Hwf Hp Hv Hne2)
    as (b2 & v & Hsrc & Hjump2 & Hwf' & Hto & Hfrom & Hoth & _).
  assert (b2 = b') as -> by congruence.
  destruct (jump_moves_spec b' tr tc Hwf' Hv) as (Y' & HY' & Hin' & _).
  exists Y'. split; [done|]. apply Hin'.
  exists (- d.1, - d.2). split; [by apply opposite_direction|].
  injection Heq as -> ->.
  assert (shift (fr + 2 * d.1, fc + 2 * d.2) 2 (- d.1, - d.2) = (fr, fc)) as E2.
  { unfold shift. simpl. f_equal; lia. }
  assert (shift (fr + 2 * d.1, fc + 2 * d.2) 1 (- d.1, - d.2)
          = shift (fr, fc) 1 d) as E1.
  { unfold shift. simpl. f_equal; lia. }
  split; [done|]. unfold jump_target. rewrite E2, E1.
  split; [done|]. split; [|done].
  exists pl. rewrite Hoth; done.
Qed.

(** ** Clicks during a jump chain *)

(** In a jump chain a click on a cell that is neither the active unit's cell
    nor a recorded jump target changes nothing. *)
Lemma jump_chain_other_click_ignored (s : state) (p : pos) (mouse_pos : Z * Z) :
  wf_board (st_board s) → JumpChain s p →
  valid (clicked_cell mouse_pos) →
  clicked_cell mouse_pos ≠ p →
  clicked_cell mouse_pos ∉ possible_jumps s →
  handle_click s mouse_pos = Some s.
Proof.
  intros Hwf (Hover & Hseq & Hsel) Hv Hne Hnotin.
  assert (_is_point_in_button mouse_pos = false) as Hbutton.
  { destruct (_is_point_in_button mouse_pos) eqn:Hb; [|done].
    by destruct (button_off_board mouse_pos Hb). }
  rewrite handle_click_board; [|done|by rewrite Hbutton, andb_false_r|done].
  destruct (clicked_cell mouse_pos) as [row col]. destruct p as [sr sc].
  apply valid_pos_iff in Hv as [Hr Hc].
  destruct (cell_at_is_Some (st_board s) row col Hwf Hr Hc) as [x Hx].
  unfold board_click. simpl. rewrite Hsel, Hseq.
  rewrite !decide_False by done. rewrite andb_false_r.
  rewrite Hx. cbn. by rewrite andb_false_r.
Qed.

(** A click on the active unit's own cell takes the deselect branch, which
    comes before every test of [in_jump_sequence]. *)
Lemma jump_chain_click_on_active_unit (s : state) (p : pos) (mouse_pos : Z * Z) :
  JumpChain s p → valid p → clicked_cell mouse_pos = p →
  handle_click s mouse_pos = Some (_deselect_unit s).
Proof.
  intros (Hover & Hseq & Hsel) Hv Hcell.
  assert (_is_point_in_button mouse_pos = false) as Hbutton.
  { destruct (_is_point_in_button mouse_pos) eqn:Hb; [|done].
    destruct (button_off_board mouse_pos Hb). by rewrite Hcell. }
  rewrite handle_click_board; [|done|by rewrite Hbutton, andb_false_r|by rewrite Hcell].
  rewrite Hcell. destruct p as [sr sc]. unfold board_click. simpl.
  rewrite Hsel. by rewrite decide_True.
Qed.

(** C3, on the code: the jump chain entered by the clicks (100, 100) and
    (300, 100) from the opening position has the unit at (1, 3) active; a
    further click on that unit, which is not a jump target, clears the
    selection, the jump set and the in-chain flag, and red stays on move. *)
Theorem click_on_active_unit_leaves_chain :
  run_clicks start_state [(100, 100); (300, 100)] = Some chain_state
  ∧ JumpChain chain_state (1, 3)
  ∧ clicked_cell (300, 100) = (1, 3)
  ∧ ((1, 3) ∉ possible_jumps chain_state)
  ∧ handle_click chain_state (300, 100)
    = Some (mkState hop_board PLAYER1 None ∅ ∅ false None false false).
Proof.
  split; [by vm_compute|]. split; [done|]. split; [done|]. split.
  - intros Hin. vm_compute in Hin. discriminate Hin.
  - by vm_compute.
Qed.

(** What the deselection allows: in the same turn red then picks the unit at
    (2, 2) and steps it to (3, 2), a second move, and only then does the turn
    pass to blue. *)
Example second_move_in_one_turn :
  run_clicks start_state
    [(100, 100); (300, 100); (300, 100); (180, 180); (180, 260)]
  = Some (mkState
            [ [Some PLAYER1; Some PLAYER1; Some PLAYER1; EMPTY; EMPTY; EMPTY; EMPTY; EMPTY];
              [Some PLAYER1; EMPTY; Some PLAYER1; Some PLAYER1; EMPTY; EMPTY; EMPTY; EMPTY];
              [Some PLAYER1; Some PLAYER1; EMPTY; EMPTY; EMPTY; EMPTY; EMPTY; EMPTY];
              [EMPTY; EMPTY; Some PLAYER1; EMPTY; EMPTY; EMPTY; EMPTY; EMPTY];
              [EMPTY; EMPTY; EMPTY; EMPTY; EMPTY; EMPTY; EMPTY; EMPTY];
              [EMPTY; EMPTY; EMPTY; EMPTY; EMPTY; Some PLAYER2; Some PLAYER2; Some PLAYER2];
              [EMPTY; EMPTY; EMPTY; EMPTY; EMPTY; Some PLAYER2; Some PLAYER2; Some PLAYER2];
              [EMPTY; EMPTY; EMPTY; EMPTY; EMPTY; Some PLAYER2; Some PLAYER2; Some PLAYER2] ]
            PLAYER2 None ∅ ∅ false None false false).
Proof. vm_compute. reflexivity. Qed.

(** ** The step relation of a click *)

#[local] Arguments select_unit : simpl never.
#[local] Arguments _end_turn : simpl never.
#[local] Arguments _get_jump_moves : simpl never.
#[local] Arguments _get_simple_moves : simpl never.
#[local] Arguments _perform_jump : simpl never.
#[local] Arguments _perform_simple_move : simpl never.
#[local] Arguments _check_win_condition : simpl never.
#[local] Arguments cell_at : simpl never.

Lemma board_click_step (s : state) (row col : Z) (s' : state) :
  board_click s row col = Some s' → board_step s row col s'.
Proof.
  unfold board_click. intros Hclick.
  destruct (selected_unit s) as [[sr sc]|] eqn:Hsel.
  - case_decide as Hsame.
    { injection Hsame as -> ->. injection Hclick as <-.
      by apply step_deselect_same. }
    case_decide as Hjump.
    { destruct (_perform_jump _ _ _ _ _) as [b'|] eqn:Hb'; [|done].
      cbn in Hclick.
      destruct (_get_jump_moves b' row col) as [nj|] eqn:Hnj; [|done].
      cbn in Hclick. case_decide as Hmore.
      - injection Hclick as <-. by eapply (step_jump_chain _ _ _ (sr, sc)).
      - subst nj. by eapply (step_jump_end _ _ _ (sr, sc)). }
    destruct (bool_decide ((row, col) ∈ possible_moves s)
              && negb (in_jump_sequence s)) eqn:Hmove.
    { apply andb_true_iff in Hmove as [Hm%bool_decide_eq_true Hseq%negb_true_iff].
      destruct (_perform_simple_move _ _ _ _ _) as [b'|] eqn:Hb'; [|done].
      cbn in Hclick. by eapply (step_simple_move _ _ _ (sr, sc)). }
    destruct (cell_at (st_board s) row col) as [x|] eqn:Hx; [|done].
    cbn in Hclick.
    destruct (in_jump_sequence s) eqn:Hseq.
    + rewrite andb_false_r in Hclick. cbn in Hclick. injection Hclick as <-.
      by eapply (step_chain_ignore _ _ _ (sr, sc)).
    + rewrite andb_true_r in Hmove, Hclick.
      apply bool_decide_eq_false in Hmove. cbn in Hclick.
      destruct (bool_decide (x = Some (current_player s))) eqn:Hown.
      * apply bool_decide_eq_true in Hown as ->.
        by eapply (step_reselect _ _ _ (sr, sc)).
      * apply bool_decide_eq_false in Hown. injection Hclick as <-.
        by eapply (step_deselect_other _ _ _ (sr, sc)).
  - destruct (cell_at (st_board s) row col) as [x|] eqn:Hx; [|done].
    cbn in Hclick. case_decide as Hown.
    + subst x. by apply step_select.
    + injection Hclick as <-. by eapply step_idle_ignore.
Qed.

(** The four ways a click is handled. *)
Lemma handle_click_cases (s : state) (mouse_pos : Z * Z) (s' : state) :
  handle_click s mouse_pos = Some s' →
  (game_over s = true ∧ s' = s)
  ∨ (game_over s = false ∧ in_jump_sequence s = true
     ∧ _is_point_in_button mouse_pos = true ∧ _end_turn s = Some s')
  ∨ (game_over s = false ∧ ¬ valid (clicked_cell mouse_pos) ∧ s' = s)
  ∨ (game_over s = false ∧ valid (clicked_cell mouse_pos)
     ∧ board_step s (clicked_cell mouse_pos).1 (clicked_cell mouse_pos).2 s').
Proof.
  unfold handle_click. intros Hclick.
  destruct (game_over s) eqn:Hover; [left; split; congruence|].
  destruct (in_jump_sequence s && _is_point_in_button mouse_pos) eqn:Hbutton.
  { apply andb_true_iff in Hbutton as [? ?]. right. left. done. }
  cbv zeta in Hclick. unfold valid, clicked_cell. simpl.
  destruct (_is_valid_position _ _) eqn:Hv; cbn in Hclick.
  - right. right. right. split; [done|]. split; [done|].
    by apply board_click_step.
  - right. right. left. split; [done|]. split; [done|]. congruence.
Qed.

(** ** Coherence of selection, move sets and winner *)

Lemma state_inv_no_winner (s : state) :
  state_inv s → game_over s = false → winner s = None.
Proof.
  intros (_ & _ & _ & Hwin & _) Hover.
  destruct (winner s) as [pl|] eqn:Hw; [|done].
  assert (game_over s = true) by (apply Hwin; done). congruence.
Qed.

Lemma select_unit_coherent (s : state) (row col : Z) (s' : state) :
  game_over s = false → in_jump_sequence s = false → winner s = None →
  cell_at (st_board s) row col = Some (Some (current_player s)) →
  select_unit s row col = Some s' → coherent s'.
Proof.
  intros Hover Hseq Hwin Hown. unfold select_unit. intros Hsel.
  destruct (_get_simple_moves _ _ _) as [moves|] eqn:Hm; [|done].
  destruct (_get_jump_moves _ _ _) as [jumps|] eqn:Hj; [|done].
  cbn in Hsel. injection Hsel as <-. unfold coherent. cbn.
  rewrite Hseq, Hwin. done.
Qed.

Lemma end_turn_coherent (s s' : state) :
  wf_board (st_board s) → winner s = None →
  _end_turn s = Some s' → coherent s'.
Proof.
  intros Hwf Hwin Hend.
  destruct (end_turn_spec s Hwf)
    as (w & s2 & Hw & Hs2 & Hb & Hsel & Hm & Hj & Hseq & _ & Hnone & Hsome).
  assert (s2 = s') as -> by congruence.
  unfold coherent. rewrite Hsel, Hm, Hj, Hseq, Hb. split; [done|].
  intros pl Hpl. destruct w as [pl'|].
  - destruct (Hsome pl' eq_refl) as (_ & _ & ?). congruence.
  - destruct (Hnone eq_refl) as (_ & _ & ?). congruence.
Qed.

Lemma deselect_coherent (s : state) :
  coherent s → coherent (_deselect_unit s).
Proof. intros [_ Hwin]. by split. Qed.

Lemma board_step_coherent (s : state) (row col : Z) (s' : state) :
  state_inv s → coherent s → game_over s = false → valid (row, col) →
  board_step s row col s' → coherent s'.
Proof.
  intros Hinv Hco Hover Hv Hstep.
  pose proof (state_inv_no_winner s Hinv Hover) as Hnow.
  pose proof Hinv as (Hwf & _ & _ & _ & _ & Hsel).
  destruct Hstep as [s' Hs Hown Hsu | x Hs Hx Hnot | Hs
                    | p b' nj Hs Hne Hin Hb' Hnj Hmore
                    | p b' s' Hs Hne Hin Hb' Hnj Hend
                    | p b' s' Hs Hne Hnin Hin Hseq Hb' Hend
                    | p s' Hs Hne Hnin Hnin' Hseq Hown Hsu
                    | p x Hs Hne Hnin Hnin' Hseq Hx Hnot
                    | p x Hs Hne Hnin Hseq Hx].
  - unfold coherent in Hco. rewrite Hs in Hco. destruct Hco as [(_ & _ & Hseq) _].
    by eapply select_unit_coherent.
  - done.
  - by apply deselect_coherent.
  - destruct (Hsel p Hs) as (Hvp & Htargets). destruct p as [sr sc].
    unfold coherent in Hco. rewrite Hs in Hco. destruct Hco as [(_ & Hown & _) _].
    destruct (perform_jump_spec (st_board s) sr sc row col Hwf Hvp Hv Hne)
      as (b2 & v & Hsrc & Hjump & _ & Hto & _).
    simpl in *. assert (b2 = b') as -> by congruence.
    unfold coherent. cbn. rewrite Hnow.
    split; [|done]. split; [done|]. split; [congruence|]. done.
  - destruct (Hsel p Hs) as (Hvp & Htargets). destruct p as [sr sc].
    destruct (perform_jump_spec (st_board s) sr sc row col Hwf Hvp Hv Hne)
      as (b2 & v & _ & Hjump & Hwf' & _).
    simpl in *. assert (b2 = b') as -> by congruence.
    by apply (end_turn_coherent (with_board s b')).
  - destruct (Hsel p Hs) as (Hvp & Htargets). destruct p as [sr sc].
    rewrite perform_simple_move_eq in Hb'.
    destruct (perform_jump_spec (st_board s) sr sc row col Hwf Hvp Hv Hne)
      as (b2 & v & _ & Hjump & Hwf' & _).
    simpl in *. assert (b2 = b') as -> by congruence.
    by apply (end_turn_coherent (with_board s b')).
  - by eapply select_unit_coherent.
  - by apply deselect_coherent.
  - done.
Qed.

Lemma handle_click_coherent (s : state) (mouse_pos : Z * Z) (s' : state) :
  state_inv s → coherent s →
  handle_click s mouse_pos = Some s' → coherent s'.
Proof.
  intros Hinv Hco Hclick.
  destruct (handle_click_cases s mouse_pos s' Hclick)
    as [[_ ->]|[(Hover & _ & _ & Hend)|[(_ & _ & ->)|(Hover & Hv & Hstep)]]];
    [done| |done|].
  - pose proof Hinv as (Hwf & _).
    eapply end_turn_coherent; [done| |done]. by apply state_inv_no_winner.
  - destruct (clicked_cell mouse_pos) as [row col].
    by eapply board_step_coherent.
Qed.

Lemma motion_coherent (s : state) (mouse_pos : Z * Z) :
  coherent s → coherent (handle_mouse_motion s mouse_pos).
Proof.
  unfold handle_mouse_motion. destruct (in_jump_sequence s) eqn:Hseq; [|done].
  unfold coherent. cbn. by rewrite Hseq.
Qed.

Lemma reachable_coherent (s : state) : reachable s → coherent s.
Proof.
  induction 1 as [s Hinit|s mouse_pos s' Hreach IH Hclick|s mouse_pos _ IH].
  - rewrite init_eq in Hinit. injection Hinit as <-. by split.
  - eapply handle_click_coherent; [|done..]. by apply reachable_inv.
  - by apply motion_coherent.
Qed.

Lemma board_step_click (s : state) (row col : Z) (s' : state) :
  board_step s row col s' → board_click s row col = Some s'.
Proof.
  unfold board_click.
  intros [s2 Hs Hown Hsu | x Hs Hx Hnot | Hs
         | [sr sc] b' nj Hs Hne Hin Hb' Hnj Hmore
         | [sr sc] b' s2 Hs Hne Hin Hb' Hnj Hend
         | [sr sc] b' s2 Hs Hne Hnin Hin Hseq Hb' Hend
         | [sr sc] s2 Hs Hne Hnin Hnin' Hseq Hown Hsu
         | [sr sc] x Hs Hne Hnin Hnin' Hseq Hx Hnot
         | [sr sc] x Hs Hne Hnin Hseq Hx]; rewrite Hs; simpl in *.
  - rewrite Hown. cbn. by rewrite decide_True.
  - rewrite Hx. cbn. by rewrite decide_False.
  - by rewrite decide_True.
  - rewrite decide_False, decide_True by done. rewrite Hb'. cbn.
    rewrite Hnj. cbn. by rewrite decide_True.
  - rewrite decide_False, decide_True by done. rewrite Hb'. cbn.
    rewrite Hnj. cbn. rewrite decide_False; [done|]. by intros [].
  - rewrite !decide_False by done. rewrite bool_decide_eq_true_2 by done.
    rewrite Hseq. cbn. rewrite Hb'. done.
  - rewrite !decide_False by done. rewrite bool_decide_eq_false_2 by done.
    cbn. rewrite Hown. cbn. rewrite bool_decide_eq_true_2 by done.
    by rewrite Hseq.
  - rewrite !decide_False by done. rewrite bool_decide_eq_false_2 by done.
    cbn. rewrite Hx. cbn. rewrite bool_decide_eq_false_2 by done.
    by rewrite Hseq.
  - rewrite !decide_False by done. rewrite Hseq, andb_false_r.
    rewrite Hx. cbn. by rewrite andb_false_r.
Qed.

(** A click on an in-bounds cell is never a click on the End Turn button. *)
Lemma board_cell_not_button (mouse_pos : Z * Z) :
  valid (clicked_cell mouse_pos) → _is_point_in_button mouse_pos = false.
Proof.
  intros Hv. destruct (_is_point_in_button mouse_pos) eqn:Hb; [|done].
  by destruct (button_off_board mouse_pos Hb).
Qed.

Lemma handle_click_step (s : state) (mouse_pos : Z * Z) (s' : state) :
  game_over s = false → valid (clicked_cell mouse_pos) →
  board_step s (clicked_cell mouse_pos).1 (clicked_cell mouse_pos).2 s' →
  handle_click s mouse_pos = Some s'.
Proof.
  intros Hover Hv Hstep.
  rewrite handle_click_board; [|done| |done].
  - by apply board_step_click.
  - by rewrite board_cell_not_button, andb_false_r.
Qed.

Lemma reachable_start_state : reachable start_state.
Proof. apply reach_init. reflexivity. Defined.

Lemma reachable_picked_state : reachable picked_state.
Proof.
  apply (reach_click start_state (100, 100)); [|by vm_compute].
  exact reachable_start_state.
Defined.

(** ** What holds in every state of a game *)

(** X1: no click raises in a state of a game: every board access of
    [handle_click] is in range and the click returns a state. *)
Theorem click_never_raises (s : state) (mouse_pos : Z * Z) :
  reachable s → ∃ s', handle_click s mouse_pos = Some s' ∧ reachable s'.
Proof.
  intros Hreach. pose proof (reachable_inv s Hreach) as Hinv.
  destruct (handle_click_inv s mouse_pos Hinv) as (s' & Hs' & _).
  exists s'. split; [done|]. by eapply reach_click.
Qed.

Lemma click_never_raises_witness :
  ∃ s', handle_click chain_state (-5, 700) = Some s' ∧ reachable s'.
Proof. apply (click_never_raises chain_state (-5, 700)). exact reachable_chain_state. Defined.

(** X2: while a unit is selected the game is not over, the selected cell is
    in bounds and holds a unit of the player to move, the recorded jump set
    is what [_get_jump_moves] returns for that cell on the current board and,
    outside a jump chain, the recorded simple-move set is what
    [_get_simple_moves] returns. *)
Theorem selection_in_sync (s : state) (p : pos) :
  reachable s → selected_unit s = Some p →
  game_over s = false
  ∧ valid p
  ∧ cell_at (st_board s) p.1 p.2 = Some (Some (current_player s))
  ∧ _get_jump_moves (st_board s) p.1 p.2 = Some (possible_jumps s)
  ∧ (in_jump_sequence s = false →
       _get_simple_moves (st_board s) p.1 p.2 = Some (possible_moves s)).
Proof.
  intros Hreach Hsel.
  pose proof (reachable_inv s Hreach) as (_ & _ & _ & _ & _ & Hvalid).
  pose proof (reachable_coherent s Hreach) as [Hco _].
  rewrite Hsel in Hco. destruct Hco as (Hover & Hown & Hjumps & Hmoves).
  split; [done|]. split; [by apply Hvalid|]. split; [done|]. split; [done|].
  intros Hseq. by rewrite Hseq in Hmoves.
Qed.

Lemma selection_in_sync_witness :
  game_over picked_state = false
  ∧ valid (1, 1)
  ∧ cell_at (st_board picked_state) 1 1 = Some (Some (current_player picked_state))
  ∧ _get_jump_moves (st_board picked_state) 1 1 = Some (possible_jumps picked_state)
  ∧ (in_jump_sequence picked_state = false →
       _get_simple_moves (st_board picked_state) 1 1
       = Some (possible_moves picked_state)).
Proof.
  apply (selection_in_sync picked_state (1, 1)).
  - exact reachable_picked_state.
  - reflexivity.
Defined.

(** X3: a jump chain is never stuck: while [in_jump_sequence] is set a unit
    is selected, the game is not over, no simple move is on offer and at
    least one further jump is. *)
Theorem chain_has_continuation (s : state) :
  reachable s → in_jump_sequence s = true →
  game_over s = false
  ∧ (∃ p, selected_unit s = Some p)
  ∧ possible_moves s = ∅
  ∧ possible_jumps s ≠ ∅.
Proof.
  intros Hreach Hseq. pose proof (reachable_coherent s Hreach) as [Hco _].
  destruct (selected_unit s) as [p|].
  - destruct Hco as (Hover & _ & _ & Hsets). rewrite Hseq in Hsets.
    destruct Hsets. split; [done|]. split; [by eexists|]. done.
  - destruct Hco as (_ & _ & ?). congruence.
Qed.

Lemma chain_has_continuation_witness :
  game_over chain_state = false
  ∧ (∃ p, selected_unit chain_state = Some p)
  ∧ possible_moves chain_state = ∅
  ∧ possible_jumps chain_state ≠ ∅.
Proof.
  apply (chain_has_continuation chain_state).
  - exact reachable_chain_state.
  - reflexivity.
Defined.

(** X4: with no unit selected nothing is on offer: both recorded move sets
    are empty and no jump chain is in progress. *)
Theorem idle_has_no_targets (s : state) :
  reachable s → selected_unit s = None →
  possible_moves s = ∅ ∧ possible_jumps s = ∅ ∧ in_jump_sequence s = false.
Proof.
  intros Hreach Hsel. pose proof (reachable_coherent s Hreach) as [Hco _].
  by rewrite Hsel in Hco.
Qed.

Lemma idle_has_no_targets_witness :
  possible_moves start_state = ∅ ∧ possible_jumps start_state = ∅
  ∧ in_jump_sequence start_state = false.
Proof.
  apply (idle_has_no_targets start_state).
  - exact reachable_start_state.
  - reflexivity.
Defined.

(** ** Moves can be taken back *)

Lemma board_ext (b1 b2 : board) :
  wf_board b1 → wf_board b2 →
  (∀ q : pos, valid q → cell_at b1 q.1 q.2 = cell_at b2 q.1 q.2) →
  b1 = b2.
Proof.
  intros Hwf1 Hwf2 Hcells. apply list_eq. intros i.
  destruct (decide (i < 8)%nat) as [Hi|Hi].
  - destruct (lookup_lt_is_Some_2 b1 i) as [r1 Hr1];
      [destruct Hwf1 as [-> _]; lia|].
    destruct (lookup_lt_is_Some_2 b2 i) as [r2 Hr2];
      [destruct Hwf2 as [-> _]; lia|].
    rewrite Hr1, Hr2. f_equal. apply list_eq. intros j.
    pose proof (wf_board_row b1 i r1 Hwf1 Hr1) as Hl1.
    pose proof (wf_board_row b2 i r2 Hwf2 Hr2) as Hl2.
    destruct (decide (j < 8)%nat) as [Hj|Hj].
    + specialize (Hcells (Z.of_nat i, Z.of_nat j)). simpl in Hcells.
      rewrite !cell_at_in_range in Hcells by (done || lia).
      rewrite !Nat2Z.id, Hr1, Hr2 in Hcells. simpl in Hcells.
      apply Hcells. apply valid_pos_iff. lia.
    + rewrite !lookup_ge_None_2 by lia. done.
  - rewrite !lookup_ge_None_2; [done|destruct Hwf2 as [-> _]; lia
                               |destruct Hwf1 as [-> _]; lia].
Qed.

Lemma perform_jump_undo (b : board) (fr fc tr tc : Z) (b' : board) :
  wf_board b → valid (fr, fc) → valid (tr, tc) → (tr, tc) ≠ (fr, fc) →
  is_empty b (tr, tc) →
  _perform_jump b fr fc tr tc = Some b' →
  _perform_jump b' tr tc fr fc = Some b.
Proof.
  intros Hwf Hvf Hvt Hne Hempty Hjump.
  destruct (perform_jump_spec b fr fc tr tc Hwf Hvf Hvt Hne)
    as (b1 & v & Hsrc & Hjump1 & Hwf1 & Hto1 & Hfrom1 & Hoth1 & _).
  assert (b1 = b') as -> by congruence.
  destruct (perform_jump_spec b' tr tc fr fc Hwf1 Hvt Hvf)
    as (b2 & v2 & Hsrc2 & Hjump2 & Hwf2 & Hto2 & Hfrom2 & Hoth2 & _);
    [congruence|].
  rewrite Hjump2. f_equal. apply board_ext; [done..|].
  intros [row col] Hq. simpl.
  destruct (decide ((row, col) = (fr, fc))) as [[= -> ->]|Hnf].
  { congruence. }
  destruct (decide ((row, col) = (tr, tc))) as [[= -> ->]|Hnt].
  { rewrite Hfrom2. symmetry. exact Hempty. }
  pose proof (Hoth2 (row, col) Hq Hnt Hnf) as H2.
  pose proof (Hoth1 (row, col) Hq Hnf Hnt) as H1.
  simpl in H1, H2. congruence.
Qed.

Lemma simple_jump_disjoint (p : pos) (d d' : Z * Z) :
  d ∈ directions → d' ∈ directions → shift p 1 d ≠ shift p 2 d'.
Proof.
  intros Hd Hd'. destruct p as [row col]. unfold shift.
  each_direction Hd; each_direction Hd'; simpl; intros [=]; lia.
Qed.

(** X5: a jump can always be taken back: after a jump to a computed target
    the source cell is a jump target at the landing cell, and the jump back
    gives the board before the jump. *)
Theorem jump_can_be_taken_back (b : board) (fr fc tr tc : Z) (Y : gset pos) :
  wf_board b → valid (fr, fc) →
  _get_jump_moves b fr fc = Some Y → (tr, tc) ∈ Y →
  ∃ (b' : board) (Y' : gset pos),
    _perform_jump b fr fc tr tc = Some b'
    ∧ _get_jump_moves b' tr tc = Some Y'
    ∧ (fr, fc) ∈ Y'
    ∧ _perform_jump b' tr tc fr fc = Some b.
Proof.
  intros Hwf Hp HY Hin.
  destruct (jump_moves_spec b fr fc Hwf Hp) as (Y0 & HY0 & Hin0 & _).
  assert (Y0 = Y) as -> by congruence.
  apply Hin0 in Hin as Hin1. destruct Hin1 as (d & Hd & Heq & Hj).
  destruct (jump_target_facts b (fr, fc) d Hd Hj) as (Hv & He & Hne & _).
  rewrite <- Heq in Hv, He, Hne.
  destruct (perform_jump_spec b fr fc tr tc Hwf Hp Hv Hne)
    as (b' & v & _ & Hjump & _).
  destruct (jump_back_available b fr fc tr tc Y b' Hwf Hp HY Hin Hjump)
    as (Y' & HY' & Hback).
  exists b', Y'. split; [done|]. split; [done|]. split; [done|].
  by apply (perform_jump_undo b fr fc tr tc).
Qed.

Lemma jump_can_be_taken_back_witness :
  ∃ (b' : board) (Y' : gset pos),
    _perform_jump start_board 1 1 3 1 = Some b'
    ∧ _get_jump_moves b' 3 1 = Some Y'
    ∧ (1, 1) ∈ Y'
    ∧ _perform_jump b' 3 1 1 1 = Some start_board.
Proof.
  apply (jump_can_be_taken_back start_board 1 1 3 1 {[ (1, 3); (3, 1) ]}).
  - exact wf_start_board.
  - reflexivity.
  - vm_compute. reflexivity.
  - vm_compute. reflexivity.
Defined.

(** X6: a simple move onto a computed target moves only the mover: the
    target takes what the source held, the source becomes empty, no other
    cell and no cell count changes; the source is then a simple-move target
    at the new cell and the move back gives the board before the move. *)
Theorem simple_move_frame_and_back (b : board) (fr fc tr tc : Z) (Y : gset pos) :
  wf_board b → valid (fr, fc) →
  _get_simple_moves b fr fc = Some Y → (tr, tc) ∈ Y →
  ∃ (b' : board) (Y' : gset pos),
    _perform_simple_move b fr fc tr tc = Some b'
    ∧ wf_board b'
    ∧ cell_at b' tr tc = cell_at b fr fc
    ∧ cell_at b' fr fc = Some EMPTY
    ∧ (∀ q : pos, valid q → q ≠ (fr, fc) → q ≠ (tr, tc) →
         cell_at b' q.1 q.2 = cell_at b q.1 q.2)
    ∧ (∀ k : cell, count_cells k b' = count_cells k b)
    ∧ _get_simple_moves b' tr tc = Some Y'
    ∧ (fr, fc) ∈ Y'
    ∧ _perform_simple_move b' tr tc fr fc = Some b.
Proof.
  intros Hwf Hp HY Hin.
  destruct (simple_moves_spec b fr fc Hwf) as (Y0 & HY0 & Hin0).
  assert (Y0 = Y) as -> by congruence.
  apply Hin0 in Hin as (d & Hd & Heq & Hv & He).
  rewrite <- Heq in Hv, He.
  assert ((tr, tc) ≠ (fr, fc)) as Hne.
  { rewrite Heq. clear -Hd. unfold shift.
    each_direction Hd; simpl; intros [=]; lia. }
  rewrite !perform_simple_move_eq.
  destruct (perform_jump_spec b fr fc tr tc Hwf Hp Hv Hne)
    as (b' & v & Hsrc & Hjump & Hwf' & Hto & Hfrom & Hoth & Hcnt).
  destruct (simple_moves_spec b' tr tc Hwf') as (Y' & HY' & Hin').
  exists b', Y'. split; [done|]. split; [done|]. split; [congruence|].
  split; [done|]. split; [done|]. split; [by apply Hcnt|].
  split; [done|]. split; [|by apply (perform_jump_undo b fr fc tr tc)].
  apply Hin'. exists (- d.1, - d.2). split; [by apply opposite_direction|].
  injection Heq as -> ->.
  assert (shift (fr + 1 * d.1, fc + 1 * d.2) 1 (- d.1, - d.2) = (fr, fc)) as E.
  { unfold shift. simpl. f_equal; lia. }
  split; [done|]. unfold simple_target. rewrite E. done.
Qed.

Lemma simple_move_frame_and_back_witness :
  ∃ (b' : board) (Y' : gset pos),
    _perform_simple_move start_board 2 2 3 2 = Some b'
    ∧ wf_board b'
    ∧ cell_at b' 3 2 = cell_at start_board 2 2
    ∧ cell_at b' 2 2 = Some EMPTY
    ∧ (∀ q : pos, valid q → q ≠ (2, 2) → q ≠ (3, 2) →
         cell_at b' q.1 q.2 = cell_at start_board q.1 q.2)
    ∧ (∀ k : cell, count_cells k b' = count_cells k start_board)
    ∧ _get_simple_moves b' 3 2 = Some Y'
    ∧ (2, 2) ∈ Y'
    ∧ _perform_simple_move b' 3 2 2 2 = Some start_board.
Proof.
  apply (simple_move_frame_and_back start_board 2 2 3 2 {[ (3, 2); (2, 3) ]}).
  - exact wf_start_board.
  - reflexivity.
  - vm_compute. reflexivity.
  - vm_compute. reflexivity.
Defined.

(** ** Clicks in a state of a game *)

(** What the invariants give for a click on a recorded target: the selected
    cell and the target are in bounds and distinct, the target is empty and
    the selected cell holds a unit of the player to move. *)
Lemma reachable_target_facts (s : state) (p t : pos) :
  reachable s → selected_unit s = Some p →
  t ∈ possible_moves s ∪ possible_jumps s →
  game_over s = false ∧ valid p ∧ valid t ∧ t ≠ p
  ∧ is_empty (st_board s) t
  ∧ cell_at (st_board s) p.1 p.2 = Some (Some (current_player s))
  ∧ _get_jump_moves (st_board s) p.1 p.2 = Some (possible_jumps s).
Proof.
  intros Hreach Hsel Hin.
  pose proof (reachable_inv s Hreach) as (_ & _ & _ & _ & _ & Hvalid).
  pose proof (reachable_coherent s Hreach) as [Hco _].
  rewrite Hsel in Hco. destruct Hco as (Hover & Hown & Hjumps & _).
  destruct (Hvalid p Hsel) as (Hvp & Htargets).
  destruct (Htargets t Hin) as (Hvt & Het).
  split; [done|]. split; [done|]. split; [done|].
  split; [|done]. intros ->. unfold EMPTY in *. congruence.
Qed.

(** X7: in a state of a game a click on a recorded jump target never ends
    the turn: the unit jumps there, the same player stays on move and the
    state is a jump chain at the landing cell whose targets include the cell
    the unit came from. *)
Theorem jump_click_always_continues (s : state) (p : pos) (mouse_pos : Z * Z) :
  reachable s → selected_unit s = Some p →
  clicked_cell mouse_pos ∈ possible_jumps s →
  ∃ s' : state,
    handle_click s mouse_pos = Some s'
    ∧ JumpChain s' (clicked_cell mouse_pos)
    ∧ p ∈ possible_jumps s'
    ∧ current_player s' = current_player s
    ∧ _perform_jump (st_board s) p.1 p.2
        (clicked_cell mouse_pos).1 (clicked_cell mouse_pos).2
      = Some (st_board s')
    ∧ cell_at (st_board s') (clicked_cell mouse_pos).1 (clicked_cell mouse_pos).2
      = Some (Some (current_player s))
    ∧ cell_at (st_board s') p.1 p.2 = Some EMPTY.
Proof.
  intros Hreach Hsel Hin.
  destruct (reachable_target_facts s p (clicked_cell mouse_pos) Hreach Hsel)
    as (Hover & Hvp & Hvt & Hne & Het & Hown & Hjumps); [set_solver|].
  pose proof (reachable_inv s Hreach) as (Hwf & _).
  destruct p as [sr sc]. destruct (clicked_cell mouse_pos) as [row col] eqn:Hcell.
  simpl in *.
  destruct (perform_jump_spec (st_board s) sr sc row col Hwf Hvp Hvt Hne)
    as (b' & v & Hsrc & Hjump & Hwf' & Hto & Hfrom & _).
  destruct (jump_back_available (st_board s) sr sc row col _ b'
              Hwf Hvp Hjumps Hin Hjump) as (Y' & HY' & Hback).
  eexists. split.
  { apply handle_click_step; [done|by rewrite Hcell|]. rewrite Hcell. simpl.
    apply (step_jump_chain s row col (sr, sc) b' Y'); try done. set_solver. }
  cbn. split; [done|]. split; [done|]. split; [done|]. split; [done|].
  split; [congruence|done].
Qed.

Lemma jump_click_always_continues_witness :
  ∃ s' : state,
    handle_click picked_state (100, 300) = Some s'
    ∧ JumpChain s' (clicked_cell (100, 300))
    ∧ (1, 1) ∈ possible_jumps s'
    ∧ current_player s' = current_player picked_state
    ∧ _perform_jump (st_board picked_state) 1 1
        (clicked_cell (100, 300)).1 (clicked_cell (100, 300)).2
      = Some (st_board s')
    ∧ cell_at (st_board s') (clicked_cell (100, 300)).1 (clicked_cell (100, 300)).2
      = Some (Some (current_player picked_state))
    ∧ cell_at (st_board s') 1 1 = Some EMPTY.
Proof.
  apply (jump_click_always_continues picked_state (1, 1) (100, 300)).
  - exact reachable_picked_state.
  - reflexivity.
  - vm_compute. reflexivity.
Defined.




(** X9: with a unit selected and no chain in progress, a click on another
    unit of the player to move selects that unit instead: the board and the
    player are unchanged and both move sets are recomputed for the new
    cell. *)
Theorem click_on_other_own_unit_reselects (s : state) (p : pos) (mouse_pos : Z * Z) :
  reachable s → Selected s p →
  valid (clicked_cell mouse_pos) → clicked_cell mouse_pos ≠ p →
  cell_at (st_board s) (clicked_cell mouse_pos).1 (clicked_cell mouse_pos).2
    = Some (Some (current_player s)) →
  ∃ s' : state,
    handle_click s mouse_pos = Some s'
    ∧ Selected s' (clicked_cell mouse_pos)
    ∧ st_board s' = st_board s
    ∧ current_player s' = current_player s
    ∧ _get_simple_moves (st_board s)
        (clicked_cell mouse_pos).1 (clicked_cell mouse_pos).2
      = Some (possible_moves s')
    ∧ _get_jump_moves (st_board s)
        (clicked_cell mouse_pos).1 (clicked_cell mouse_pos).2
      = Some (possible_jumps s').
Proof.
  intros Hreach (Hover & Hseq & Hsel) Hvt Hne Hown.
  pose proof (reachable_inv s Hreach) as (Hwf & _ & _ & _ & _ & Hvalid).
  destruct (Hvalid p Hsel) as (_ & Htargets).
  destruct (clicked_cell mouse_pos) as [row col] eqn:Hcell. simpl in *.
  assert ((row, col) ∉ possible_moves s ∪ possible_jumps s) as Hnot.
  { intros Hin. destruct (Htargets _ Hin) as (_ & He). simpl in He.
    unfold EMPTY in *. congruence. }
  destruct (simple_moves_spec (st_board s) row col Hwf) as (Y1 & HY1 & _).
  destruct (jump_moves_spec (st_board s) row col Hwf Hvt) as (Y2 & HY2 & _).
  eexists. split.
  { apply handle_click_step; [done|by rewrite Hcell|]. rewrite Hcell. simpl.
    apply (step_reselect s row col p); try done; [set_solver..|].
    unfold select_unit. rewrite HY1, HY2. done. }
  cbn. rewrite Hover, Hseq. done.
Qed.

Lemma click_on_other_own_unit_reselects_witness :
  ∃ s' : state,
    handle_click picked_state (180, 180) = Some s'
    ∧ Selected s' (clicked_cell (180, 180))
    ∧ st_board s' = st_board picked_state
    ∧ current_player s' = current_player picked_state
    ∧ _get_simple_moves (st_board picked_state)
        (clicked_cell (180, 180)).1 (clicked_cell (180, 180)).2
      = Some (possible_moves s')
    ∧ _get_jump_moves (st_board picked_state)
        (clicked_cell (180, 180)).1 (clicked_cell (180, 180)).2
      = Some (possible_jumps s').
Proof.
  apply (click_on_other_own_unit_reselects picked_state (1, 1) (180, 180)).
  - exact reachable_picked_state.
  - repeat split.
  - reflexivity.
  - vm_compute. discriminate.
  - reflexivity.
Defined.

(** X10: with a unit selected and no chain in progress, a click on the
    selected unit itself, or on an in-bounds cell that is neither a recorded
    target nor a unit of the player to move, drops the selection: both move
    sets are cleared and nothing else changes. *)
Theorem stray_click_deselects (s : state) (p : pos) (mouse_pos : Z * Z) (x : cell) :
  wf_board (st_board s) → Selected s p →
  valid (clicked_cell mouse_pos) →
  clicked_cell mouse_pos ∉ possible_moves s ∪ possible_jumps s →
  cell_at (st_board s) (clicked_cell mouse_pos).1 (clicked_cell mouse_pos).2
    = Some x →
  clicked_cell mouse_pos = p ∨ x ≠ Some (current_player s) →
  handle_click s mouse_pos
  = Some (mkState (st_board s) (current_player s) None ∅ ∅
            false (winner s) false (button_hovered s)).
Proof.
  intros Hwf (Hover & Hseq & Hsel) Hvt Hnot Hx Hwhich.
  replace (mkState (st_board s) (current_player s) None ∅ ∅
             false (winner s) false (button_hovered s))
    with (_deselect_unit s) by (unfold _deselect_unit; by rewrite Hover).
  apply handle_click_step; [done..|].
  destruct (clicked_cell mouse_pos) as [row col]. simpl in *.
  destruct (decide ((row, col) = p)) as [<-|Hne].
  - by apply step_deselect_same.
  - destruct Hwhich as [?|Hnown]; [done|].
    apply (step_deselect_other s row col p x); try done; set_solver.
Qed.

Lemma stray_click_deselects_witness :
  handle_click picked_state (500, 300)
  = Some (mkState (st_board picked_state) (current_player picked_state)
            None ∅ ∅ false (winner picked_state) false
            (button_hovered picked_state)).
Proof.
  apply (stray_click_deselects picked_state (1, 1) (500, 300) EMPTY).
  - exact wf_start_board.
  - repeat split.
  - reflexivity.
  - vm_compute. intros H. discriminate H.
  - reflexivity.
  - right. discriminate.
Defined.

(** X11: with nothing selected, a click on a unit of the player to move
    selects it, recording the simple moves and the jumps computed for its
    cell; a click on any other in-bounds cell (empty, or an opponent's unit)
    changes nothing. *)
Theorem idle_click_selects_own_unit_only (s : state) (mouse_pos : Z * Z) (x : cell) :
  wf_board (st_board s) → Idle s →
  valid (clicked_cell mouse_pos) →
  cell_at (st_board s) (clicked_cell mouse_pos).1 (clicked_cell mouse_pos).2
    = Some x →
  (x ≠ Some (current_player s) → handle_click s mouse_pos = Some s)
  ∧ (x = Some (current_player s) →
       ∃ moves jumps : gset pos,
         _get_simple_moves (st_board s)
           (clicked_cell mouse_pos).1 (clicked_cell mouse_pos).2 = Some moves
         ∧ _get_jump_moves (st_board s)
             (clicked_cell mouse_pos).1 (clicked_cell mouse_pos).2 = Some jumps
         ∧ handle_click s mouse_pos
           = Some (mkState (st_board s) (current_player s)
                     (Some (clicked_cell mouse_pos)) moves jumps
                     false (winner s) false (button_hovered s))).
Proof.
  intros Hwf (Hover & Hseq & Hsel) Hvt Hx.
  destruct (clicked_cell mouse_pos) as [row col] eqn:Hcell. simpl in *.
  split.
  - intros Hnown. apply handle_click_step; [done|by rewrite Hcell|].
    rewrite Hcell. by apply (step_idle_ignore s row col x).
  - intros ->.
    destruct (simple_moves_spec (st_board s) row col Hwf) as (Y1 & HY1 & _).
    destruct (jump_moves_spec (st_board s) row col Hwf Hvt) as (Y2 & HY2 & _).
    exists Y1, Y2. split; [done|]. split; [done|].
    apply handle_click_step; [done|by rewrite Hcell|]. rewrite Hcell.
    apply step_select; [done..|].
    unfold select_unit. simpl. rewrite HY1, HY2. cbn.
    by rewrite Hover, Hseq.
Qed.

Lemma idle_click_selects_own_unit_only_witness :
  (Some PLAYER1 ≠ Some (current_player start_state) →
     handle_click start_state (100, 100) = Some start_state)
  ∧ (Some PLAYER1 = Some (current_player start_state) →
       ∃ moves jumps : gset pos,
         _get_simple_moves (st_board start_state)
           (clicked_cell (100, 100)).1 (clicked_cell (100, 100)).2 = Some moves
         ∧ _get_jump_moves (st_board start_state)
             (clicked_cell (100, 100)).1 (clicked_cell (100, 100)).2 = Some jumps
         ∧ handle_click start_state (100, 100)
           = Some (mkState (st_board start_state) (current_player start_state)
                     (Some (clicked_cell (100, 100))) moves jumps
                     false (winner start_state) false
                     (button_hovered start_state))).
Proof.
  apply (idle_click_selects_own_unit_only start_state (100, 100) (Some PLAYER1)).
  - exact wf_start_board.
  - repeat split.
  - reflexivity.
  - reflexivity.
Defined.

(** X12: selecting a unit and clicking it again is a round trip: in a state
    of a game with nothing selected, two clicks on the same unit of the
    player to move give back the very same state. *)
Theorem select_then_deselect_round_trip (s : state) (mouse_pos : Z * Z) :
  reachable s → game_over s = false → selected_unit s = None →
  valid (clicked_cell mouse_pos) →
  cell_at (st_board s) (clicked_cell mouse_pos).1 (clicked_cell mouse_pos).2
    = Some (Some (current_player s)) →
  run_clicks s [mouse_pos; mouse_pos] = Some s.
Proof.
  intros Hreach Hover Hsel Hvt Hown.
  pose proof (reachable_inv s Hreach) as (Hwf & _).
  pose proof (reachable_coherent s Hreach) as [Hco _].
  rewrite Hsel in Hco. destruct Hco as (Hm & Hj & Hseq).
  destruct (clicked_cell mouse_pos) as [row col] eqn:Hcell. simpl in *.
  destruct (simple_moves_spec (st_board s) row col Hwf) as (Y1 & HY1 & _).
  destruct (jump_moves_spec (st_board s) row col Hwf Hvt) as (Y2 & HY2 & _).
  set (s1 := mkState (st_board s) (current_player s) (Some (row, col)) Y1 Y2
                     (game_over s) (winner s) (in_jump_sequence s)
                     (button_hovered s)).
  assert (handle_click s mouse_pos = Some s1) as H1.
  { apply handle_click_step; [done|by rewrite Hcell|]. rewrite Hcell.
    apply step_select; [done..|].
    unfold select_unit. simpl. by rewrite HY1, HY2. }
  assert (handle_click s1 mouse_pos = Some (_deselect_unit s1)) as H2.
  { apply handle_click_step; [done|by rewrite Hcell|]. rewrite Hcell.
    by apply step_deselect_same. }
  assert (_deselect_unit s1 = s) as H3.
  { unfold _deselect_unit, s1. cbn. destruct s. simpl in *. congruence. }
  unfold run_clicks. cbn -[handle_click]. rewrite H1. cbn -[handle_click].
  by rewrite H2, H3.
Qed.

Lemma select_then_deselect_round_trip_witness :
  run_clicks start_state [(100, 100); (100, 100)] = Some start_state.
Proof.
  apply (select_then_deselect_round_trip start_state (100, 100)).
  - exact reachable_start_state.
  - reflexivity.
  - reflexivity.
  - reflexivity.
  - reflexivity.
Defined.

(** ** A finished game *)

Lemma run_clicks_reachable (l : list (Z * Z)) (s s' : state) :
  reachable s → run_clicks s l = Some s' → reachable s'.
Proof.
  revert s. unfold run_clicks.
  induction l as [|mouse_pos l IH]; intros s Hreach Hrun; cbn -[handle_click] in Hrun.
  - by injection Hrun as <-.
  - destruct (handle_click s mouse_pos) as [s1|] eqn:Hclick.
    + apply (IH s1); [|done]. by apply (reach_click s mouse_pos).
    + exfalso. clear -Hrun. induction l as [|q l IHl]; [done|].
      apply IHl. exact Hrun.
Defined.

Lemma full_game_runs : run_clicks start_state full_game = Some finished_state.
Proof. vm_compute. reflexivity. Qed.

Lemma reachable_finished_state : reachable finished_state.
Proof.
  apply (run_clicks_reachable full_game start_state).
  - exact reachable_start_state.
  - exact full_game_runs.
Defined.

(** ** What a click can change *)

Lemma select_unit_fields (s : state) (row col : Z) (s' : state) :
  select_unit s row col = Some s' →
  st_board s' = st_board s ∧ current_player s' = current_player s
  ∧ game_over s' = game_over s ∧ winner s' = winner s.
Proof.
  unfold select_unit. intros Hsel.
  destruct (_get_simple_moves _ _ _); [|done].
  destruct (_get_jump_moves _ _ _); [|done].
  cbn in Hsel. by injection Hsel as <-.
Qed.

Lemma end_turn_inversion (s s' : state) :
  _end_turn s = Some s' →
  st_board s' = st_board s ∧ selected_unit s' = None
  ∧ in_jump_sequence s' = false
  ∧ ((∃ pl, _check_win_condition (st_board s) = Some (Some pl)
            ∧ current_player s' = current_player s
            ∧ game_over s' = true ∧ winner s' = Some pl)
     ∨ (_check_win_condition (st_board s) = Some None
        ∧ current_player s' = other_player (current_player s)
        ∧ game_over s' = game_over s ∧ winner s' = winner s)).
Proof.
  unfold _end_turn. cbn. intros Hend.
  destruct (_check_win_condition (st_board s)) as [[pl|]|]; [| |done];
    cbn in Hend; injection Hend as <-; cbn.
  - split; [done|]. split; [done|]. split; [done|]. left. by exists pl.
  - split; [done|]. split; [done|]. split; [done|]. by right.
Qed.

Lemma other_player_neq (pl : player) : other_player pl ≠ pl.
Proof. by destruct pl. Qed.

(** X13: a click changes the board only by moving one unit of the player to
    move: either the board is unchanged, or the selected unit, which belongs
    to that player, went to the clicked empty cell, one step away in one of
    the four directions (outside a jump chain) or two steps away over a cell
    that holds a unit. *)
Theorem click_moves_only_the_selected_unit
    (s : state) (mouse_pos : Z * Z) (s' : state) :
  reachable s → handle_click s mouse_pos = Some s' →
  st_board s' = st_board s
  ∨ ∃ (p : pos) (d : Z * Z) (n : Z),
      selected_unit s = Some p
      ∧ d ∈ directions
      ∧ (n = 1 ∧ in_jump_sequence s = false
         ∨ n = 2 ∧ holds_unit (st_board s) (shift p 1 d))
      ∧ clicked_cell mouse_pos = shift p n d
      ∧ cell_at (st_board s) p.1 p.2 = Some (Some (current_player s))
      ∧ is_empty (st_board s) (shift p n d)
      ∧ _perform_jump (st_board s) p.1 p.2 (shift p n d).1 (shift p n d).2
        = Some (st_board s').
Proof.
  intros Hreach Hclick.
  pose proof (reachable_inv s Hreach) as (Hwf & _).
  pose proof (reachable_coherent s Hreach) as [Hco _].
  destruct (handle_click_cases s mouse_pos s' Hclick)
    as [[_ ->]|[(_ & _ & _ & Hend)|[(_ & _ & ->)|(Hover & Hv & Hstep)]]];
    [by left|left; by apply end_turn_inversion in Hend as (? & _)|by left|].
  destruct (clicked_cell mouse_pos) as [row col] eqn:Hcell. simpl in Hstep.
  assert (∀ p b', selected_unit s = Some p → (row, col) ∈ possible_jumps s →
            _perform_jump (st_board s) p.1 p.2 row col = Some b' →
            ∃ (p : pos) (d : Z * Z) (n : Z),
              selected_unit s = Some p ∧ d ∈ directions
              ∧ (n = 1 ∧ in_jump_sequence s = false
                 ∨ n = 2 ∧ holds_unit (st_board s) (shift p 1 d))
              ∧ (row, col) = shift p n d
              ∧ cell_at (st_board s) p.1 p.2 = Some (Some (current_player s))
              ∧ is_empty (st_board s) (shift p n d)
              ∧ _perform_jump (st_board s) p.1 p.2
                  (shift p n d).1 (shift p n d).2 = Some b') as Hjumpcase.
  { intros p b' Hs Hin Hb'.
    destruct (reachable_target_facts s p (row, col) Hreach Hs)
      as (_ & Hvp & _ & _ & _ & Hown & Hjumps); [set_solver|].
    destruct p as [sr sc]. simpl in *.
    destruct (jump_moves_spec (st_board s) sr sc Hwf Hvp) as (Y & HY & HinY & _).
    assert (Y = possible_jumps s) as -> by congruence.
    apply HinY in Hin as (d & Hd & Heq & (Hvl & Hu & He)).
    injection Heq as -> ->.
    exists (sr, sc), d, 2. split; [done|]. split; [done|]. split; [by right|]. done. }
  destruct Hstep as [s' Hs Hown Hsu | x Hs Hx Hnot | Hs
                    | p b' nj Hs Hne Hin Hb' Hnj Hmore
                    | p b' s' Hs Hne Hin Hb' Hnj Hend
                    | p b' s' Hs Hne Hnin Hin Hseq Hb' Hend
                    | p s' Hs Hne Hnin Hnin' Hseq Hown Hsu
                    | p x Hs Hne Hnin Hnin' Hseq Hx Hnot
                    | p x Hs Hne Hnin Hseq Hx].
  - left. by apply select_unit_fields in Hsu as (? & _).
  - by left.
  - by left.
  - right. by apply (Hjumpcase p).
  - right. apply end_turn_inversion in Hend as (-> & _). by apply (Hjumpcase p).
  - right. apply end_turn_inversion in Hend as (-> & _). simpl.
    destruct (reachable_target_facts s p (row, col) Hreach Hs)
      as (_ & Hvp & _ & _ & _ & Hown & _); [set_solver|].
    rewrite Hs, Hseq in Hco. destruct Hco as (_ & _ & _ & Hmoves).
    destruct p as [sr sc]. simpl in *.
    destruct (simple_moves_spec (st_board s) sr sc Hwf) as (Y & HY & HinY).
    assert (Y = possible_moves s) as -> by congruence.
    apply HinY in Hin as (d & Hd & Heq & (Hvl & He)).
    injection Heq as -> ->. rewrite perform_simple_move_eq in Hb'.
    exists (sr, sc), d, 1. split; [done|]. split; [done|]. split; [by left|]. done.
  - left. by apply select_unit_fields in Hsu as (? & _).
  - by left.
  - by left.
Qed.

Lemma click_moves_only_the_selected_unit_witness :
  st_board chain_state = st_board picked_state
  ∨ ∃ (p : pos) (d : Z * Z) (n : Z),
      selected_unit picked_state = Some p
      ∧ d ∈ directions
      ∧ (n = 1 ∧ in_jump_sequence picked_state = false
         ∨ n = 2 ∧ holds_unit (st_board picked_state) (shift p 1 d))
      ∧ clicked_cell (300, 100) = shift p n d
      ∧ cell_at (st_board picked_state) p.1 p.2
        = Some (Some (current_player picked_state))
      ∧ is_empty (st_board picked_state) (shift p n d)
      ∧ _perform_jump (st_board picked_state) p.1 p.2
          (shift p n d).1 (shift p n d).2
        = Some (st_board chain_state).
Proof.
  apply (click_moves_only_the_selected_unit picked_state (300, 100) chain_state).
  - exact reachable_picked_state.
  - vm_compute. reflexivity.
Defined.

(** X14: the turn passes only at a turn end with no winner, and only in two
    ways: by the End Turn button during a jump chain, or by a simple move of
    the selected unit; a click on a jump target never passes the turn.
    After it nothing is selected and the other player is to move. *)
Theorem turn_passes_only_by_button_or_simple_move
    (s : state) (mouse_pos : Z * Z) (s' : state) :
  reachable s → handle_click s mouse_pos = Some s' →
  current_player s' ≠ current_player s →
  Idle s'
  ∧ current_player s' = other_player (current_player s)
  ∧ _check_win_condition (st_board s') = Some None
  ∧ ((in_jump_sequence s = true ∧ _is_point_in_button mouse_pos = true
      ∧ st_board s' = st_board s)
     ∨ (∃ p, Selected s p ∧ clicked_cell mouse_pos ∈ possible_moves s)).
Proof.
  intros Hreach Hclick Hswitch.
  pose proof (reachable_inv s Hreach) as Hinv.
  pose proof Hinv as (Hwf & _).
  destruct (handle_click_cases s mouse_pos s' Hclick)
    as [[_ ->]|[(Hover & Hseq & Hbutton & Hend)
               |[(_ & _ & ->)|(Hover & Hv & Hstep)]]]; [done| |done|].
  - apply end_turn_inversion in Hend
      as (Hb & Hsel & Hnoseq & [(pl & _ & Hsame & _)|(Hw & Hcur & Hgo & _)]);
      [done|].
    rewrite Hb. split; [split; [congruence|done]|]. split; [done|].
    split; [done|]. left. done.
  - destruct (clicked_cell mouse_pos) as [row col] eqn:Hcell. simpl in Hstep.
    destruct Hstep as [s' Hs Hown Hsu | x Hs Hx Hnot | Hs
                      | p b' nj Hs Hne Hin Hb' Hnj Hmore
                      | p b' s' Hs Hne Hin Hb' Hnj Hend
                      | p b' s' Hs Hne Hnin Hin Hseq Hb' Hend
                      | p s' Hs Hne Hnin Hnin' Hseq Hown Hsu
                      | p x Hs Hne Hnin Hnin' Hseq Hx Hnot
                      | p x Hs Hne Hnin Hseq Hx]; try done.
    + by apply select_unit_fields in Hsu as (_ & ? & _).
    + exfalso.
      destruct (reachable_target_facts s p (row, col) Hreach Hs)
        as (_ & Hvp & _ & _ & _ & _ & Hjumps); [set_solver|].
      destruct (jump_back_available (st_board s) p.1 p.2 row col
                  (possible_jumps s) b' Hwf) as (Y' & HY' & Hback);
        [by destruct p|done..|].
      rewrite Hnj in HY'. injection HY' as <-. set_solver.
    + apply end_turn_inversion in Hend
        as (Hb & Hsel & Hnoseq & [(pl & _ & Hsame & _)|(Hw & Hcur & Hgo & _)]);
        [done|].
      simpl in *. rewrite Hb.
      split; [split; [congruence|done]|]. split; [done|]. split; [done|].
      right. exists p. done.
    + by apply select_unit_fields in Hsu as (_ & ? & _).
Qed.

Lemma turn_passes_only_by_button_or_simple_move_witness :
  Idle (mkState hop_board PLAYER2 None ∅ ∅ false None false false)
  ∧ PLAYER2 = other_player (current_player chain_state)
  ∧ _check_win_condition hop_board = Some None
  ∧ ((in_jump_sequence chain_state = true ∧ _is_point_in_button (520, 650) = true
      ∧ hop_board = st_board chain_state)
     ∨ (∃ p, Selected chain_state p
             ∧ clicked_cell (520, 650) ∈ possible_moves chain_state)).
Proof.
  apply (turn_passes_only_by_button_or_simple_move chain_state (520, 650)
           (mkState hop_board PLAYER2 None ∅ ∅ false None false false)).
  - exact reachable_chain_state.
  - vm_compute. reflexivity.
  - discriminate.
Defined.

(** X15: a winner is recorded only together with [game_over], with nothing
    selected, and it is the player [_check_win_condition] reports on the
    board as it stands; from then on no sequence of clicks changes the
    state. *)
Theorem recorded_winner_is_final (s : state) (pl : player) :
  reachable s → winner s = Some pl →
  game_over s = true
  ∧ selected_unit s = None
  ∧ in_jump_sequence s = false
  ∧ _check_win_condition (st_board s) = Some (Some pl)
  ∧ ∀ l : list (Z * Z), run_clicks s l = Some s.
Proof.
  intros Hreach Hwin.
  pose proof (reachable_inv s Hreach) as (_ & _ & _ & Hiff & Hidle & _).
  pose proof (reachable_coherent s Hreach) as [_ Hco].
  assert (game_over s = true) as Hover by (apply Hiff; congruence).
  destruct (Hidle Hover) as [Hsel Hseq].
  split; [done|]. split; [done|]. split; [done|]. split; [by apply Hco|].
  intros l. unfold run_clicks. induction l as [|q l IH]; [done|].
  assert (handle_click s q = Some s) as Hq
    by (unfold handle_click; by rewrite Hover).
  cbn -[handle_click]. rewrite Hq. exact IH.
Qed.

Lemma recorded_winner_is_final_witness :
  game_over finished_state = true
  ∧ selected_unit finished_state = None
  ∧ in_jump_sequence finished_state = false
  ∧ _check_win_condition (st_board finished_state) = Some (Some PLAYER1)
  ∧ ∀ l : list (Z * Z), run_clicks finished_state l = Some finished_state.
Proof.
  apply (recorded_winner_is_final finished_state PLAYER1).
  - exact reachable_finished_state.
  - reflexivity.
Defined.

(** ** Who can win *)

Lemma all_home_within (b : board) (pl : player) :
  all_home b pl
  ↔ if decide (pl = PLAYER1) then all_within b PLAYER1 5 7
    else all_within b PLAYER2 0 2.
Proof.
  unfold all_home, all_within. destruct pl; simpl;
    split; intros H p Hv Hc; specialize (H p Hv Hc);
    by rewrite home_area_iff in *.
Qed.

(** A summary of one click: the board stays or the selected unit of the
    player on move went to an empty cell; and either no turn ended, or the
    turn ended with or without a winner on the new board. *)
Lemma click_summary (s : state) (mouse_pos : Z * Z) (s' : state) :
  reachable s → handle_click s mouse_pos = Some s' →
  (st_board s' = st_board s
   ∨ ∃ p, selected_unit s = Some p
          ∧ unit_moved (st_board s) (current_player s) p
              (clicked_cell mouse_pos) (st_board s'))
  ∧ ((current_player s' = current_player s ∧ winner s' = winner s
      ∧ game_over s' = game_over s)
     ∨ (game_over s = false
        ∧ _check_win_condition (st_board s') = Some None
        ∧ current_player s' = other_player (current_player s)
        ∧ winner s' = winner s ∧ game_over s' = false)
     ∨ (game_over s = false
        ∧ ∃ pl, _check_win_condition (st_board s') = Some (Some pl)
                ∧ current_player s' = current_player s
                ∧ winner s' = Some pl ∧ game_over s' = true)).
Proof.
  intros Hreach Hclick.
  pose proof (reachable_inv s Hreach) as (Hwf & _).
  assert (∀ s0, game_over s0 = false → current_player s0 = current_player s →
            winner s0 = winner s → _end_turn s0 = Some s' →
            game_over s = false →
            (current_player s' = current_player s ∧ winner s' = winner s
             ∧ game_over s' = game_over s)
            ∨ (game_over s = false
               ∧ _check_win_condition (st_board s') = Some None
               ∧ current_player s' = other_player (current_player s)
               ∧ winner s' = winner s ∧ game_over s' = false)
            ∨ (game_over s = false
               ∧ ∃ pl, _check_win_condition (st_board s') = Some (Some pl)
                       ∧ current_player s' = current_player s
                       ∧ winner s' = Some pl ∧ game_over s' = true)) as Hturn.
  { intros s0 Hover0 Hcur0 Hwin0 Hend Hover.
    apply end_turn_inversion in Hend
      as (Hb & _ & _ & [(pl & Hw & Hcur & Hgo & Hwin)|(Hw & Hcur & Hgo & Hwin)]);
      rewrite Hb.
    - right. right. split; [done|]. exists pl. split; [done|].
      split; [congruence|]. done.
    - right. left. split; [done|]. split; [done|]. split; [congruence|].
      split; congruence. }
  assert (∀ p b', selected_unit s = Some p →
            clicked_cell mouse_pos ∈ possible_moves s ∪ possible_jumps s →
            _perform_jump (st_board s) p.1 p.2
              (clicked_cell mouse_pos).1 (clicked_cell mouse_pos).2 = Some b' →
            unit_moved (st_board s) (current_player s) p
              (clicked_cell mouse_pos) b') as Hmoved.
  { intros p b' Hs Hin Hb'.
    destruct (reachable_target_facts s p _ Hreach Hs Hin)
      as (_ & Hvp & Hvt & Hne & He & Hown & _).
    done. }
  destruct (handle_click_cases s mouse_pos s' Hclick)
    as [[_ ->]|[(Hover & _ & _ & Hend)|[(_ & _ & ->)|(Hover & Hv & Hstep)]]].
  - split; [by left|by left].
  - split; [left; by apply end_turn_inversion in Hend as (? & _)|].
    by apply (Hturn s).
  - split; [by left|by left].
  - destruct (clicked_cell mouse_pos) as [row col] eqn:Hcell. simpl in Hstep.
    destruct Hstep as [s' Hs Hown Hsu | x Hs Hx Hnot | Hs
                      | p b' nj Hs Hne Hin Hb' Hnj Hmore
                      | p b' s' Hs Hne Hin Hb' Hnj Hend
                      | p b' s' Hs Hne Hnin Hin Hseq Hb' Hend
                      | p s' Hs Hne Hnin Hnin' Hseq Hown Hsu
                      | p x Hs Hne Hnin Hnin' Hseq Hx Hnot
                      | p x Hs Hne Hnin Hseq Hx].
    + apply select_unit_fields in Hsu as (? & ? & ? & ?).
      split; [by left|by left].
    + split; [by left|by left].
    + split; [by left|by left].
    + split; [|by left]. right. exists p. split; [done|].
      apply Hmoved; [done|set_solver|done].
    + split; [|by apply (Hturn (with_board s b'))].
      right. exists p. split; [done|].
      apply end_turn_inversion in Hend as (-> & _).
      apply Hmoved; [done|set_solver|done].
    + split; [|by apply (Hturn (with_board s b'))].
      right. exists p. split; [done|].
      apply end_turn_inversion in Hend as (-> & _).
      apply Hmoved; [done|set_solver|by rewrite <- perform_simple_move_eq].
    + apply select_unit_fields in Hsu as (? & ? & ? & ?).
      split; [by left|by left].
    + split; [by left|by left].
    + split; [by left|by left].
Qed.

(** A move of one player's unit onto an empty cell does not change where
    the other player's units stand. *)
Lemma unit_moved_other_home (b : board) (pl pl' : player) (p t : pos) (b' : board) :
  wf_board b → unit_moved b pl p t b' → pl' ≠ pl →
  all_home b' pl' ↔ all_home b pl'.
Proof.
  intros Hwf (Hvp & Hvt & Hne & Hown & He & Hjump) Hpl.
  destruct p as [sr sc], t as [row col]. simpl in *.
  destruct (perform_jump_spec b sr sc row col Hwf Hvp Hvt Hne)
    as (b2 & v & Hsrc & Hjump2 & _ & Hto & Hfrom & Hoth & _).
  assert (b2 = b') as -> by congruence.
  assert (v = Some pl) as -> by congruence.
  assert (∀ q : pos, valid q →
            cell_at b' q.1 q.2 = Some (Some pl')
            ↔ cell_at b q.1 q.2 = Some (Some pl')) as Hsame.
  { intros q Hq.
    destruct (decide (q = (sr, sc))) as [->|Hnf]; simpl.
    { rewrite Hfrom, Hown. unfold EMPTY. split; intros [=]; done. }
    destruct (decide (q = (row, col))) as [->|Hnt]; simpl.
    { unfold is_empty in He. simpl in He. rewrite Hto, He. unfold EMPTY.
      split; intros [=]; done. }
    by rewrite Hoth. }
  unfold all_home. split; intros H q Hq Hc; apply H; try done; by apply Hsame.
Qed.

Lemma click_mover_wins (s : state) (mouse_pos : Z * Z) (s' : state) :
  reachable s → mover_wins s →
  handle_click s mouse_pos = Some s' → mover_wins s'.
Proof.
  intros Hreach [Hopp Hwin] Hclick.
  pose proof (reachable_inv s Hreach) as Hinv. pose proof Hinv as (Hwf & _).
  destruct (click_summary s mouse_pos s' Hreach Hclick) as [Hboard Hturn].
  assert (¬ all_home (st_board s') (other_player (current_player s))) as Hopp'.
  { destruct Hboard as [->|(p & _ & Hmoved)]; [done|].
    rewrite (unit_moved_other_home _ _ _ _ _ _ Hwf Hmoved); [done|].
    apply other_player_neq. }
  pose proof (reachable_click_total s mouse_pos Hreach) as _.
  assert (wf_board (st_board s')) as Hwf'.
  { destruct (handle_click_inv s mouse_pos Hinv) as (s2 & Hs2 & (? & _)).
    congruence. }
  destruct (check_win_spec (st_board s') Hwf') as (w & Hw & H1 & H2 & H3).
  destruct Hturn as [(Hcur & Hw' & _)
                    |[(Hover & Hnone & Hcur & Hw' & _)
                     |(Hover & pl & Hsome & Hcur & Hw' & _)]].
  - split; [by rewrite Hcur|]. intros pl. rewrite Hw', Hcur. apply Hwin.
  - split.
    + rewrite Hcur. assert (w = None) as -> by congruence.
      destruct H3 as [H3 _]. destruct (H3 eq_refl) as [Hn1 Hn2].
      rewrite all_home_within. by destruct (current_player s).
    + intros pl. rewrite Hw'.
      rewrite (state_inv_no_winner s Hinv Hover). done.
  - split; [by rewrite Hcur|]. intros pl'. rewrite Hw', Hcur. intros [= <-].
    assert (w = Some pl) as -> by congruence.
    rewrite all_home_within in Hopp'.
    destruct pl, (current_player s); simpl in *; try done.
    + destruct H1 as [H1 _]. by specialize (H1 eq_refl).
    + destruct H2 as [H2 _]. by destruct (H2 eq_refl).
Qed.

Lemma reachable_mover_wins (s : state) : reachable s → mover_wins s.
Proof.
  induction 1 as [s Hinit|s mouse_pos s' Hreach IH Hclick|s mouse_pos _ IH].
  - rewrite init_eq in Hinit. injection Hinit as <-. split; [|done].
    intros Hhome. specialize (Hhome (5, 5) eq_refl eq_refl). done.
  - by eapply click_mover_wins.
  - unfold handle_mouse_motion. by destruct (in_jump_sequence s).
Qed.

(** X16: the winner is always the player who made the last move, and the
    two players are never both home: when a winner is recorded the other
    player still has a unit outside its target area, so the order in which
    [_check_win_condition] tests the two players never decides a game. *)
Theorem winner_is_last_mover (s : state) (pl : player) :
  reachable s → winner s = Some pl →
  current_player s = pl
  ∧ all_home (st_board s) pl
  ∧ ¬ all_home (st_board s) (other_player pl).
Proof.
  intros Hreach Hwin.
  pose proof (reachable_mover_wins s Hreach) as [Hopp Hmover].
  pose proof (reachable_coherent s Hreach) as [_ Hco].
  pose proof (reachable_inv s Hreach) as (Hwf & _).
  rewrite <- (Hmover pl Hwin) in Hopp. split; [by rewrite (Hmover pl Hwin)|].
  split; [|done].
  destruct (check_win_spec (st_board s) Hwf) as (w & Hw & H1 & H2 & _).
  assert (w = Some pl) as -> by (specialize (Hco pl Hwin); congruence).
  rewrite all_home_within. destruct pl; simpl.
  - by apply H1.
  - by apply H2.
Qed.

Lemma winner_is_last_mover_witness :
  current_player finished_state = PLAYER1
  ∧ all_home (st_board finished_state) PLAYER1
  ∧ ¬ all_home (st_board finished_state) (other_player PLAYER1).
Proof.
  apply (winner_is_last_mover finished_state PLAYER1).
  - exact reachable_finished_state.
  - reflexivity.
Defined.

(** ** A win fills the target area *)

(** Splitting a well-formed board into its 64 cells. *)
Ltac explode_row r H :=
  do 8 (destruct r as [|? r]; [discriminate H|]);
  destruct r; [clear H|discriminate H].

Ltac explode_board b Hwf :=
  let Hlen := fresh "Hlen" in
  let Hrows := fresh "Hrows" in
  destruct Hwf as [Hlen Hrows];
  do 8 (destruct b as [|? b]; [discriminate Hlen|]);
  destruct b; [clear Hlen|discriminate Hlen];
  repeat match goal with
         | H : Forall _ (_ :: _) |- _ => apply Forall_cons in H as [? H]
         | H : Forall _ [] |- _ => clear H
         end;
  repeat match goal with
         | H : length ?r = 8%nat |- _ => explode_row r H
         end.

Ltac per_col tac r :=
  tac r 0; tac r 1; tac r 2; tac r 3; tac r 4; tac r 5; tac r 6; tac r 7.

Ltac per_cell tac :=
  per_col tac 0; per_col tac 1; per_col tac 2; per_col tac 3;
  per_col tac 4; per_col tac 5; per_col tac 6; per_col tac 7.

Lemma home_block_full (b : board) (pl : player) :
  wf_board b → count_cells (Some pl) b = 9%nat → all_home b pl →
  ∀ p : pos, valid p → _is_in_home_area p.1 p.2 pl = true →
    cell_at b p.1 p.2 = Some (Some pl).
Proof.
  intros Hwf Hcount Hhome.
  assert (∀ row col x, cell_at b row col = Some x →
            _is_valid_position row col = true →
            _is_in_home_area row col pl = false →
            (if decide (x = Some pl) then 1 else 0)%nat = 0%nat) as Hout.
  { intros row col x Hx Hv Hno. case_decide as Hc; [|done]. subst x.
    specialize (Hhome (row, col) Hv Hx). simpl in Hhome. congruence. }
  assert (∀ row col x, cell_at b row col = Some x →
            (if decide (x = Some pl) then 1 else 0)%nat ≤ 1)%nat
    as Hle by (intros row col x _; case_decide; lia).
  assert (∀ row col x, cell_at b row col = Some x →
            (if decide (x = Some pl) then 1 else 0)%nat = 1%nat →
            cell_at b row col = Some (Some pl)) as Hin.
  { intros row col x Hx Hone. case_decide; [by subst x|done]. }
  explode_board b Hwf.
  unfold count_cells, count_row in Hcount. cbn [sum_list_with] in Hcount.
  intros [row col] [Hr Hc]%valid_pos_iff Harea%home_area_iff. simpl in *.
  destruct pl; simpl in Harea.
  - per_cell ltac:(fun r c =>
      first [ pose proof (Hout r c _ eq_refl eq_refl eq_refl)
            | pose proof (Hle r c _ eq_refl) ]).
    assert (row = 5 ∨ row = 6 ∨ row = 7) as [->|[->| ->]] by lia;
      assert (col = 5 ∨ col = 6 ∨ col = 7) as [->|[->| ->]] by lia;
      (eapply Hin; [reflexivity|]); simpl in *; lia.
  - per_cell ltac:(fun r c =>
      first [ pose proof (Hout r c _ eq_refl eq_refl eq_refl)
            | pose proof (Hle r c _ eq_refl) ]).
    assert (row = 0 ∨ row = 1 ∨ row = 2) as [->|[->| ->]] by lia;
      assert (col = 0 ∨ col = 1 ∨ col = 2) as [->|[->| ->]] by lia;
      (eapply Hin; [reflexivity|]); simpl in *; lia.
Qed.

(** X17: in a state of a game, when [_check_win_condition] reports a player
    the board shows that player's nine units exactly on the nine cells of
    its target area: a cell holds one of them if and only if
    [_is_in_home_area] accepts it. *)
Theorem win_fills_target_area (s : state) (pl : player) :
  reachable s → _check_win_condition (st_board s) = Some (Some pl) →
  ∀ p : pos, valid p →
    (cell_at (st_board s) p.1 p.2 = Some (Some pl)
     ↔ _is_in_home_area p.1 p.2 pl = true).
Proof.
  intros Hreach Hcheck.
  pose proof (reachable_inv s Hreach) as (Hwf & H1 & H2 & _).
  destruct (check_win_spec (st_board s) Hwf) as (w & Hw & Hp1 & Hp2 & _).
  assert (w = Some pl) as -> by congruence.
  assert (all_home (st_board s) pl) as Hhome.
  { rewrite all_home_within. destruct pl; simpl.
    - by apply Hp1.
    - by apply Hp2. }
  assert (count_cells (Some pl) (st_board s) = 9%nat) as Hcount
    by (by destruct pl).
  intros p Hv. split.
  - by apply Hhome.
  - by apply home_block_full.
Qed.

Lemma win_fills_target_area_witness :
  _check_win_condition (st_board finished_state) = Some (Some PLAYER1)
  ∧ ∀ p : pos, valid p →
      (cell_at (st_board finished_state) p.1 p.2 = Some (Some PLAYER1)
       ↔ _is_in_home_area p.1 p.2 PLAYER1 = true).
Proof.
  split; [by vm_compute|].
  apply (win_fills_target_area finished_state PLAYER1).
  - exact reachable_finished_state.
  - vm_compute. reflexivity.
Defined.

(** ** Move queries: how many, and when they raise *)

Lemma size_list_to_set_le (l : list pos) :
  (size (list_to_set l : gset pos) ≤ length l)%nat.
Proof.
  induction l as [|x l IH].
  - by rewrite list_to_set_nil, size_empty.
  - rewrite list_to_set_cons, size_union_alt, size_singleton. simpl.
    assert ((list_to_set l : gset pos) ∖ {[x]} ⊆ list_to_set l) as Hsub
      by set_solver.
    apply subseteq_size in Hsub. lia.
Qed.

(** X18: from any in-bounds cell there is at most one move in each of the
    four directions, a step onto the adjacent cell when it is empty or a hop
    over it when it holds a unit, never both: the simple moves and the jumps
    of a cell are disjoint, never contain the cell itself, and together
    number at most four. *)
Theorem at_most_one_move_per_direction (b : board) (row col : Z) :
  wf_board b → valid (row, col) →
  ∃ Y1 Y2 : gset pos,
    _get_simple_moves b row col = Some Y1
    ∧ _get_jump_moves b row col = Some Y2
    ∧ Y1 ∩ Y2 = ∅
    ∧ ((row, col) ∉ Y1 ∪ Y2)
    ∧ (∀ d, d ∈ directions →
         ¬ (shift (row, col) 1 d ∈ Y1 ∧ shift (row, col) 2 d ∈ Y2))
    ∧ (size (Y1 ∪ Y2) ≤ 4)%nat.
Proof.
  intros Hwf Hp.
  destruct (simple_moves_spec b row col Hwf) as (Y1 & HY1 & Hin1).
  destruct (jump_moves_spec b row col Hwf Hp) as (Y2 & HY2 & Hin2 & _).
  exists Y1, Y2. split; [done|]. split; [done|].
  assert (∀ d d', d ∈ directions → d' ∈ directions →
            shift (row, col) 1 d = shift (row, col) 1 d' → d = d') as Hinj1.
  { intros d d' Hd Hd'. unfold shift.
    each_direction Hd; each_direction Hd'; simpl; intros [=]; (done || lia). }
  assert (∀ d d', d ∈ directions → d' ∈ directions →
            shift (row, col) 2 d = shift (row, col) 2 d' → d = d') as Hinj2.
  { intros d d' Hd Hd'. unfold shift.
    each_direction Hd; each_direction Hd'; simpl; intros [=]; (done || lia). }
  split; [|split; [|split]].
  - apply set_eq. intros q. rewrite elem_of_intersection, Hin1, Hin2.
    split; [|set_solver].
    intros [(d & Hd & -> & _) (d' & Hd' & Heq & _)].
    by destruct (simple_jump_disjoint (row, col) d d' Hd Hd').
  - rewrite elem_of_union, Hin1, Hin2.
    intros [(d & Hd & Heq & _)|(d & Hd & Heq & _)]; revert Heq; unfold shift;
      each_direction Hd; simpl; intros [=]; lia.
  - intros d Hd [(d1 & Hd1 & Heq1 & (_ & He))%Hin1
                 (d2 & Hd2 & Heq2 & (_ & [pl Hu] & _))%Hin2].
    apply Hinj1 in Heq1 as <-; [|done..]. apply Hinj2 in Heq2 as <-; [|done..].
    unfold is_empty, EMPTY in He. congruence.
  - pose (f := λ d : Z * Z,
        if decide (cell_at b (shift (row, col) 1 d).1 (shift (row, col) 1 d).2
                   = Some EMPTY)
        then shift (row, col) 1 d else shift (row, col) 2 d).
    assert (Y1 ∪ Y2 ⊆ list_to_set (f <$> directions)) as Hsub.
    { intros q. rewrite elem_of_union, Hin1, Hin2, elem_of_list_to_set.
      intros [(d & Hd & -> & (_ & He))|(d & Hd & -> & (_ & [pl Hu] & _))];
        apply list_elem_of_fmap; exists d; (split; [|done]); unfold f.
      - by rewrite decide_True.
      - rewrite decide_False; [done|]. unfold EMPTY. congruence. }
    apply subseteq_size in Hsub.
    pose proof (size_list_to_set_le (f <$> directions)) as Hlen.
    rewrite length_fmap in Hlen.
    assert (length directions = 4%nat) as Hfour by reflexivity. lia.
Qed.

Lemma at_most_one_move_per_direction_witness :
  ∃ Y1 Y2 : gset pos,
    _get_simple_moves hop_board 1 3 = Some Y1
    ∧ _get_jump_moves hop_board 1 3 = Some Y2
    ∧ Y1 ∩ Y2 = ∅
    ∧ ((1, 3) ∉ Y1 ∪ Y2)
    ∧ (∀ d, d ∈ directions →
         ¬ (shift (1, 3) 1 d ∈ Y1 ∧ shift (1, 3) 2 d ∈ Y2))
    ∧ (size (Y1 ∪ Y2) ≤ 4)%nat.
Proof.
  apply (at_most_one_move_per_direction hop_board 1 3).
  - exact wf_hop_board.
  - reflexivity.
Defined.

Lemma py_norm_None_iff (i : Z) : py_norm 8 i = None ↔ ¬ (-8 ≤ i < 8).
Proof. unfold py_norm. repeat case_decide; split; (done || lia). Qed.

Lemma py_norm_lt (n : nat) (i : Z) (k : nat) : py_norm n i = Some k → (k < n)%nat.
Proof. unfold py_norm. repeat case_decide; intros [=]; lia. Qed.

Lemma cell_at_None_iff (b : board) (row col : Z) :
  wf_board b →
  cell_at b row col = None ↔ ¬ (-8 ≤ row < 8 ∧ -8 ≤ col < 8).
Proof.
  intros Hwf. pose proof Hwf as [Hlen _].
  unfold cell_at, py_getitem. rewrite Hlen.
  destruct (py_norm 8 row) as [k|] eqn:Hk; simpl.
  - apply py_norm_lt in Hk as Hlt.
    assert (-8 ≤ row < 8) as Hrow.
    { destruct (decide (-8 ≤ row < 8)); [done|].
      apply py_norm_None_iff in n. congruence. }
    destruct (lookup_lt_is_Some_2 b k) as [r Hr]; [lia|]. rewrite Hr. simpl.
    rewrite (wf_board_row b k r Hwf Hr).
    destruct (py_norm 8 col) as [j|] eqn:Hj; simpl.
    + apply py_norm_lt in Hj as Hjlt.
      assert (-8 ≤ col < 8) as Hcol.
      { destruct (decide (-8 ≤ col < 8)); [done|].
        apply py_norm_None_iff in n. congruence. }
      destruct (lookup_lt_is_Some_2 r j) as [x Hx];
        [rewrite (wf_board_row b k r Hwf Hr); lia|].
      rewrite Hx. split; [done|]. intros []. done.
    + apply py_norm_None_iff in Hj. split; [|done]. intros _ [_ ?]. done.
  - apply py_norm_None_iff in Hk. split; [|done]. intros _ [? _]. done.
Qed.

Lemma jump_fold_total (b : board) (row col : Z) (ds : list (Z * Z)) (X : gset pos) :
  wf_board b → is_Some (foldl (jump_step b row col) (Some X) ds).
Proof.
  intros Hwf. revert X. induction ds as [|d ds IH]; intros X; cbn [foldl].
  - by eexists.
  - assert (is_Some (jump_step b row col (Some X) d)) as [Y ->]; [|apply IH].
    unfold jump_step. simpl.
    destruct (_is_valid_position (row + d.1) (col + d.2)) eqn:Hv; [|by eexists].
    apply valid_iff in Hv as [Hr Hc].
    destruct (cell_at_is_Some b _ _ Hwf Hr Hc) as [a ->]. simpl.
    case_decide; [|by eexists].
    destruct (_is_valid_position (row + d.1 + d.1) (col + d.2 + d.2)) eqn:Hl;
      [|by eexists].
    apply valid_iff in Hl as [Hlr Hlc].
    destruct (cell_at_is_Some b _ _ Hwf Hlr Hlc) as [x ->]. simpl.
    case_decide; by eexists.
Qed.

(** X19: on an 8x8 board [_get_simple_moves] never raises, whatever row and
    column it is given, while [_get_jump_moves], which first reads the
    queried cell, raises exactly when the row or the column is outside
    Python's index range -8..7 of the board. *)
Theorem move_queries_out_of_range (b : board) (row col : Z) :
  wf_board b →
  is_Some (_get_simple_moves b row col)
  ∧ (_get_jump_moves b row col = None ↔ ¬ (-8 ≤ row < 8 ∧ -8 ≤ col < 8)).
Proof.
  intros Hwf. split.
  - destruct (simple_moves_spec b row col Hwf) as (Y & -> & _). by eexists.
  - rewrite <- (cell_at_None_iff b row col Hwf). unfold _get_jump_moves.
    destruct (jump_fold_total b row col directions ∅ Hwf) as [Y HY].
    destruct (cell_at b row col) as [x|]; cbn [mbind option_bind]; [|done].
    by rewrite HY.
Qed.

Lemma move_queries_out_of_range_witness :
  is_Some (_get_simple_moves start_board 8 (-9))
  ∧ (_get_jump_moves start_board 8 (-9) = None
     ↔ ¬ (-8 ≤ 8 < 8 ∧ -8 ≤ -9 < 8)).
Proof. apply (move_queries_out_of_range start_board 8 (-9)). exact wf_start_board. Defined.

(** ** The opening position *)

(** X20: [_initialize_board] succeeds and builds an 8x8 board on which each
    player's nine units stand exactly on the other player's target area
    (red on the cells [_is_in_home_area] accepts for blue, blue on those it
    accepts for red), every other cell is empty, and nobody has won. *)
Theorem opening_position :
  ∃ b : board,
    _initialize_board = Some b
    ∧ wf_board b
    ∧ (∀ p : pos, valid p →
         cell_at b p.1 p.2
         = Some (if _is_in_home_area p.1 p.2 PLAYER2 then Some PLAYER1
                 else if _is_in_home_area p.1 p.2 PLAYER1 then Some PLAYER2
                 else EMPTY))
    ∧ count_cells (Some PLAYER1) b = 9%nat
    ∧ count_cells (Some PLAYER2) b = 9%nat
    ∧ _check_win_condition b = Some None.
Proof.
  exists start_board. split; [reflexivity|]. split; [exact wf_start_board|].
  split; [|split; [reflexivity|split; [reflexivity|by vm_compute]]].
  intros [row col] [Hr Hc]%valid_pos_iff. simpl.
  assert (row = 0 ∨ row = 1 ∨ row = 2 ∨ row = 3 ∨ row = 4 ∨ row = 5
          ∨ row = 6 ∨ row = 7) as Hrow by lia.
  assert (col = 0 ∨ col = 1 ∨ col = 2 ∨ col = 3 ∨ col = 4 ∨ col = 5
          ∨ col = 6 ∨ col = 7) as Hcol by lia.
  destruct Hrow as [->|[->|[->|[->|[->|[->|[->| ->]]]]]]];
    destruct Hcol as [->|[->|[->|[->|[->|[->|[->| ->]]]]]]];
    reflexivity.
Qed.

(** ** Pixels and cells *)

Lemma pixel_in_square (row col px py : Z) :
  col * SQUARE_SIZE ≤ px < col * SQUARE_SIZE + SQUARE_SIZE →
  row * SQUARE_SIZE ≤ py < row * SQUARE_SIZE + SQUARE_SIZE →
  clicked_cell (px, py) = (row, col).
Proof.
  unfold clicked_cell, SQUARE_SIZE. simpl. intros Hx Hy. f_equal.
  - symmetry. apply (Z.div_unique_pos py 80 row (py - row * 80)); lia.
  - symmetry. apply (Z.div_unique_pos px 80 col (px - col * 80)); lia.
Qed.

Lemma draw_units_fold (b : board) (ps : list pos) (acc : list draw_call) :
  wf_board b → Forall valid ps →
  foldl (draw_unit b) (Some acc) ps = Some (acc ++ (ps ≫= unit_calls b)).
Proof.
  intros Hwf Hps. revert acc.
  induction Hps as [|p ps Hp Hps IH]; intros acc; cbn [foldl].
  - by rewrite app_nil_r.
  - destruct p as [row col]. apply valid_pos_iff in Hp as [Hr Hc].
    destruct (cell_at_is_Some b row col Hwf Hr Hc) as [x Hx].
    rewrite bind_cons. unfold draw_unit at 2, unit_calls at 1. simpl.
    rewrite Hx. simpl. destruct x as [pl|]; rewrite IH.
    + by rewrite <- app_assoc.
    + done.
Qed.

(** X21: [draw_units] draws every unit and nothing else: for each unit a
    filled disc of radius 30 in its player's colour and a white outline,
    centred in the unit's square; and a click on any pixel of a drawn disc
    is a click on the cell of the unit it shows. *)
Theorem units_are_drawn_where_they_are_clicked (b : board) :
  wf_board b →
  ∃ calls : list draw_call,
    draw_units b = Some calls
    ∧ (∀ (p : pos) (pl : player),
         valid p → cell_at b p.1 p.2 = Some (Some pl) →
         DrawCircle (if decide (pl = PLAYER1) then RED else BLUE)
           (p.2 * 80 + 40) (p.1 * 80 + 40) 30 0 ∈ calls
         ∧ DrawCircle WHITE (p.2 * 80 + 40) (p.1 * 80 + 40) 30 2 ∈ calls)
    ∧ (∀ call, call ∈ calls →
         ∃ (p : pos) (pl : player) (c : colour) (width : Z),
           call = DrawCircle c (p.2 * 80 + 40) (p.1 * 80 + 40) 30 width
           ∧ valid p ∧ cell_at b p.1 p.2 = Some (Some pl)
           ∧ ∀ dx dy : Z, dx * dx + dy * dy ≤ 30 * 30 →
               clicked_cell (p.2 * 80 + 40 + dx, p.1 * 80 + 40 + dy) = p).
Proof.
  intros Hwf. exists (scan_order ≫= unit_calls b). split.
  { unfold draw_units. rewrite (draw_units_fold b scan_order [] Hwf); [done|].
    apply Forall_forall. intros p. apply elem_of_scan_order. }
  split.
  - intros p pl Hv Hc.
    split; apply list_elem_of_bind; exists p;
      (split; [|by apply elem_of_scan_order]);
      unfold unit_calls; rewrite Hc; set_solver.
  - intros call (p & Hcall & Hp%elem_of_scan_order)%list_elem_of_bind.
    unfold unit_calls in Hcall.
    destruct (cell_at b p.1 p.2) as [[pl|]|] eqn:Hc;
      [|by apply elem_of_nil in Hcall..].
    assert (∀ dx dy : Z, dx * dx + dy * dy ≤ 30 * 30 →
              clicked_cell (p.2 * 80 + 40 + dx, p.1 * 80 + 40 + dy) = p) as Hdisc.
    { intros dx dy Hd. destruct p as [row col]. simpl.
      assert (-30 ≤ dx ≤ 30) by nia. assert (-30 ≤ dy ≤ 30) by nia.
      apply pixel_in_square; unfold SQUARE_SIZE; lia. }
    apply elem_of_cons in Hcall as [->|Hcall].
    { exists p, pl, (if decide (pl = PLAYER1) then RED else BLUE), 0. done. }
    apply list_elem_of_singleton in Hcall as ->.
    exists p, pl, WHITE, 2. done.
Qed.

Lemma units_are_drawn_where_they_are_clicked_witness :
  ∃ calls : list draw_call,
    draw_units hop_board = Some calls
    ∧ (∀ (p : pos) (pl : player),
         valid p → cell_at hop_board p.1 p.2 = Some (Some pl) →
         DrawCircle (if decide (pl = PLAYER1) then RED else BLUE)
           (p.2 * 80 + 40) (p.1 * 80 + 40) 30 0 ∈ calls
         ∧ DrawCircle WHITE (p.2 * 80 + 40) (p.1 * 80 + 40) 30 2 ∈ calls)
    ∧ (∀ call, call ∈ calls →
         ∃ (p : pos) (pl : player) (c : colour) (width : Z),
           call = DrawCircle c (p.2 * 80 + 40) (p.1 * 80 + 40) 30 width
           ∧ valid p ∧ cell_at hop_board p.1 p.2 = Some (Some pl)
           ∧ ∀ dx dy : Z, dx * dx + dy * dy ≤ 30 * 30 →
               clicked_cell (p.2 * 80 + 40 + dx, p.1 * 80 + 40 + dy) = p).
Proof.
  apply (units_are_drawn_where_they_are_clicked hop_board). exact wf_hop_board.
Defined.

(** ** What is highlighted is what can be clicked *)

(** A click on any recorded target moves the selected unit there. *)
Lemma target_click_moves_unit (s : state) (p : pos) (mouse_pos : Z * Z) :
  reachable s → selected_unit s = Some p →
  clicked_cell mouse_pos ∈ possible_moves s ∪ possible_jumps s →
  ∃ s' : state,
    handle_click s mouse_pos = Some s'
    ∧ unit_moved (st_board s) (current_player s) p (clicked_cell mouse_pos)
        (st_board s')
    ∧ cell_at (st_board s') (clicked_cell mouse_pos).1 (clicked_cell mouse_pos).2
      = Some (Some (current_player s))
    ∧ cell_at (st_board s') p.1 p.2 = Some EMPTY.
Proof.
  intros Hreach Hsel Hin.
  destruct (reachable_target_facts s p _ Hreach Hsel Hin)
    as (Hover & Hvp & Hvt & Hne & Het & Hown & Hjumps).
  pose proof (reachable_inv s Hreach) as Hinv. pose proof Hinv as (Hwf & _).
  pose proof (reachable_coherent s Hreach) as [Hco _]. rewrite Hsel in Hco.
  destruct Hco as (_ & _ & _ & Hsets).
  destruct (handle_click_inv s mouse_pos Hinv) as (s' & Hclick & _).
  exists s'. split; [done|].
  destruct p as [sr sc]. destruct (clicked_cell mouse_pos) as [row col] eqn:Hcell.
  simpl in *.
  destruct (perform_jump_spec (st_board s) sr sc row col Hwf Hvp Hvt Hne)
    as (b' & v & Hsrc & Hjump & Hwf' & Hto & Hfrom & _).
  assert (v = Some (current_player s)) as -> by congruence.
  assert (st_board s' = b') as ->; [|done].
  assert (board_step s row col s') as Hstep.
  { destruct (handle_click_cases s mouse_pos s' Hclick)
      as [[? _]|[(_ & _ & Hb & _)|[(_ & Hnv & _)|(_ & _ & Hstep)]]].
    - congruence.
    - rewrite board_cell_not_button in Hb; [done|by rewrite Hcell].
    - by rewrite Hcell in Hnv.
    - by rewrite Hcell in Hstep. }
  destruct Hstep as [s' Hs Hown' Hsu | x Hs Hx Hnot | Hs
                    | p b2 nj Hs Hne' Hin' Hb' Hnj Hmore
                    | p b2 s' Hs Hne' Hin' Hb' Hnj Hend
                    | p b2 s' Hs Hne' Hnin Hin' Hseq Hb' Hend
                    | p s' Hs Hne' Hnin Hnin' Hseq Hown' Hsu
                    | p x Hs Hne' Hnin Hnin' Hseq Hx Hnot
                    | p x Hs Hne' Hnin Hseq Hx];
    try congruence.
  - rewrite Hsel in Hs. injection Hs as <-. simpl in *. congruence.
  - apply end_turn_inversion in Hend as (-> & _).
    rewrite Hsel in Hs. injection Hs as <-. simpl in *. congruence.
  - apply end_turn_inversion in Hend as (-> & _).
    rewrite Hsel in Hs. injection Hs as <-. simpl in *.
    rewrite perform_simple_move_eq in Hb'. congruence.
  - set_solver.
  - set_solver.
  - rewrite Hseq in Hsets. destruct Hsets as [Hnomoves _]. set_solver.
Qed.

(** X22: the rings [draw_board] puts on the squares tell what a click does:
    in a state of a game a green ring is drawn only on a square whose cell
    is an empty target of the selected unit, and a click on any pixel of a
    green-ringed square moves the selected unit into that cell. *)
Theorem green_ring_is_a_legal_click
    (s : state) (x y w h width px py : Z) :
  reachable s →
  DrawRect GREEN x y w h width ∈ draw_board s →
  x ≤ px < x + w → y ≤ py < y + h →
  ∃ (p t : pos) (s' : state),
    selected_unit s = Some p
    ∧ t ∈ possible_moves s ∪ possible_jumps s
    ∧ (x, y) = (t.2 * 80, t.1 * 80)
    ∧ clicked_cell (px, py) = t
    ∧ is_empty (st_board s) t
    ∧ handle_click s (px, py) = Some s'
    ∧ cell_at (st_board s') t.1 t.2 = Some (Some (current_player s))
    ∧ cell_at (st_board s') p.1 p.2 = Some EMPTY.
Proof.
  intros Hreach (t & Hcall & Ht%elem_of_scan_order)%list_elem_of_bind Hx Hy.
  unfold draw_square in Hcall.
  apply elem_of_cons in Hcall as [Hcall|Hcall].
  { case_decide; discriminate Hcall. }
  case_decide as Hsel; [by apply list_elem_of_singleton in Hcall|].
  destruct (bool_decide (_ ∈ possible_moves s) || bool_decide (_ ∈ possible_jumps s))
    eqn:Hring; [|by apply elem_of_nil in Hcall].
  apply list_elem_of_singleton in Hcall. injection Hcall as -> -> -> -> ->.
  assert (t ∈ possible_moves s ∪ possible_jumps s) as Hin.
  { destruct t. apply orb_true_iff in Hring as [?%bool_decide_eq_true|?%bool_decide_eq_true];
      set_solver. }
  assert (clicked_cell (px, py) = t) as Hcell.
  { destruct t as [row col]. by apply pixel_in_square. }
  pose proof (reachable_coherent s Hreach) as [Hco _].
  destruct (selected_unit s) as [p|] eqn:Hs.
  - destruct (target_click_moves_unit s p (px, py) Hreach Hs)
      as (s' & Hclick & (_ & _ & _ & _ & He & _) & Hto & Hfrom);
      [by rewrite Hcell|].
    rewrite Hcell in *. exists p, t, s'. done.
  - destruct Hco as (Hm & Hj & _). rewrite Hm, Hj in Hin. set_solver.
Qed.

Lemma green_ring_is_a_legal_click_witness :
  ∃ (p t : pos) (s' : state),
    selected_unit picked_state = Some p
    ∧ t ∈ possible_moves picked_state ∪ possible_jumps picked_state
    ∧ (240, 80) = (t.2 * 80, t.1 * 80)
    ∧ clicked_cell (250, 159) = t
    ∧ is_empty (st_board picked_state) t
    ∧ handle_click picked_state (250, 159) = Some s'
    ∧ cell_at (st_board s') t.1 t.2 = Some (Some (current_player picked_state))
    ∧ cell_at (st_board s') p.1 p.2 = Some EMPTY.
Proof.
  apply (green_ring_is_a_legal_click picked_state 240 80 80 80 4 250 159).
  - exact reachable_picked_state.
  - apply list_elem_of_bind. exists (1, 3). split.
    + vm_compute. apply list_elem_of_further, list_elem_of_here.
    + apply elem_of_scan_order. reflexivity.
  - lia.
  - lia.
Defined.

(** X23: the End Turn button is drawn exactly when it works: in a state of
    a game, during a jump chain [draw_end_turn_button] draws the button and
    a click on any pixel of the drawn rectangle ends the turn; outside a
    chain nothing is drawn and a click on that spot changes nothing. *)
Theorem end_turn_button_shown_iff_active (s : state) (px py : Z) :
  reachable s →
  BUTTON_X ≤ px < BUTTON_X + BUTTON_WIDTH →
  BUTTON_Y ≤ py < BUTTON_Y + BUTTON_HEIGHT →
  (in_jump_sequence s = true →
     (∃ c, DrawRect c BUTTON_X BUTTON_Y BUTTON_WIDTH BUTTON_HEIGHT 0
             ∈ draw_end_turn_button s)
     ∧ handle_click s (px, py) = _end_turn s
     ∧ ∃ s', _end_turn s = Some s' ∧ selected_unit s' = None
             ∧ in_jump_sequence s' = false ∧ draw_end_turn_button s' = [])
  ∧ (in_jump_sequence s = false →
       draw_end_turn_button s = [] ∧ handle_click s (px, py) = Some s).
Proof.
  intros Hreach Hx Hy.
  assert (_is_point_in_button (px, py) = true) as Hb.
  { unfold _is_point_in_button. simpl.
    rewrite andb_true_iff, !bool_decide_eq_true. lia. }
  pose proof (reachable_inv s Hreach) as (Hwf & _).
  pose proof (reachable_coherent s Hreach) as [Hco _].
  split; intros Hseq.
  - assert (game_over s = false) as Hover.
    { destruct (selected_unit s); [by destruct Hco|].
      destruct Hco as (_ & _ & ?). congruence. }
    split; [|split].
    + unfold draw_end_turn_button. rewrite Hseq. simpl. eexists.
      apply list_elem_of_here.
    + unfold handle_click. by rewrite Hover, Hseq, Hb.
    + destruct (end_turn_spec s Hwf)
        as (w & s' & _ & Hs' & _ & Hsel & _ & _ & Hnoseq & _).
      exists s'. split; [done|]. split; [done|]. split; [done|].
      unfold draw_end_turn_button. by rewrite Hnoseq.
  - split; [unfold draw_end_turn_button; by rewrite Hseq|].
    unfold handle_click. rewrite Hseq. simpl.
    destruct (game_over s); [done|].
    pose proof (button_off_board (px, py) Hb) as Hoff.
    unfold valid, clicked_cell in Hoff. simpl in Hoff.
    by destruct (_is_valid_position _ _).
Qed.

Lemma end_turn_button_shown_iff_active_witness :
  (in_jump_sequence chain_state = true →
     (∃ c, DrawRect c BUTTON_X BUTTON_Y BUTTON_WIDTH BUTTON_HEIGHT 0
             ∈ draw_end_turn_button chain_state)
     ∧ handle_click chain_state (629, 681) = _end_turn chain_state
     ∧ ∃ s', _end_turn chain_state = Some s' ∧ selected_unit s' = None
             ∧ in_jump_sequence s' = false ∧ draw_end_turn_button s' = [])
  ∧ (in_jump_sequence chain_state = false →
       draw_end_turn_button chain_state = []
       ∧ handle_click chain_state (629, 681) = Some chain_state).
Proof.
  apply (end_turn_button_shown_iff_active chain_state 629 681).
  - exact reachable_chain_state.
  - vm_compute. split; [intros H; discriminate H|reflexivity].
  - vm_compute. split; [intros H; discriminate H|reflexivity].
Defined.

(** X24: the status line always names the player on move, who at the end of
    the game is the winner: in a state of a game [draw_footer] shows that
    player's colour followed by " Wins!", " Turn - Continue Jumping or End
    Turn" or " Turn", and never the text "Game Over". *)
Theorem footer_names_the_mover (s : state) :
  reachable s →
  footer_text s
  = String.append
      (if decide (current_player s = PLAYER1) then "Red" else "Blue")
      (if game_over s then " Wins!"
       else if in_jump_sequence s then " Turn - Continue Jumping or End Turn"
       else " Turn")
  ∧ footer_text s ≠ "Game Over"
  ∧ (game_over s = true → winner s = Some (current_player s)).
Proof.
  intros Hreach.
  pose proof (reachable_inv s Hreach) as (_ & _ & _ & Hiff & _).
  pose proof (reachable_mover_wins s Hreach) as [_ Hmover].
  assert (game_over s = true → winner s = Some (current_player s)) as Hwin.
  { intros Hover. destruct (winner s) as [w|] eqn:Hw.
    - by rewrite (Hmover w eq_refl).
    - apply Hiff in Hover. done. }
  unfold footer_text. destruct (game_over s) eqn:Hover.
  - rewrite (Hwin eq_refl). split; [reflexivity|]. split; [|done].
    destruct (current_player s); discriminate.
  - split; [by destruct (in_jump_sequence s)|]. split; [|done].
    destruct (current_player s), (in_jump_sequence s); discriminate.
Qed.

Lemma footer_names_the_mover_witness :
  footer_text finished_state
  = String.append
      (if decide (current_player finished_state = PLAYER1) then "Red" else "Blue")
      (if game_over finished_state then " Wins!"
       else if in_jump_sequence finished_state
            then " Turn - Continue Jumping or End Turn"
            else " Turn")
  ∧ footer_text finished_state ≠ "Game Over"
  ∧ (game_over finished_state = true →
       winner finished_state = Some (current_player finished_state)).
Proof. apply (footer_names_the_mover finished_state). exact reachable_finished_state. Defined.

(** ** The hover flag *)

Lemma end_turn_hover (s : state) (h : bool) :
  _end_turn (with_hover s h) = (λ s', with_hover s' h) <$> _end_turn s.
Proof.
  unfold _end_turn. cbn.
  destruct (_check_win_condition (st_board s)) as [[pl|]|]; done.
Qed.

Lemma select_unit_hover (s : state) (h : bool) (row col : Z) :
  select_unit (with_hover s h) row col
  = (λ s', with_hover s' h) <$> select_unit s row col.
Proof.
  unfold select_unit. cbn.
  destruct (_get_simple_moves (st_board s) row col); [|done]. cbn.
  destruct (_get_jump_moves (st_board s) row col); done.
Qed.

Lemma board_click_hover (s : state) (h : bool) (row col : Z) :
  board_click (with_hover s h) row col
  = (λ s', with_hover s' h) <$> board_click s row col.
Proof.
  unfold board_click. cbn.
  destruct (selected_unit s) as [[sr sc]|].
  - case_decide; [done|]. case_decide.
    { destruct (_perform_jump _ _ _ _ _) as [b'|]; [|done]. cbn.
      destruct (_get_jump_moves b' row col) as [nj|]; [|done]. cbn.
      case_decide; [done|].
      apply (end_turn_hover (with_board s b') h). }
    destruct (bool_decide _ && negb (in_jump_sequence s)).
    { destruct (_perform_simple_move _ _ _ _ _) as [b'|]; [|done]. cbn.
      apply (end_turn_hover (with_board s b') h). }
    destruct (cell_at (st_board s) row col) as [x|]; [|done]. cbn.
    destruct (bool_decide _ && negb (in_jump_sequence s));
      [apply select_unit_hover|].
    by destruct (negb (in_jump_sequence s)).
  - destruct (cell_at (st_board s) row col) as [x|]; [|done]. cbn.
    case_decide; [apply select_unit_hover|done].
Qed.

(** X25: the hover flag never influences play: [handle_mouse_motion] changes
    nothing but [button_hovered], and a click does the same to two states
    that differ only in that flag, which it hands on unchanged. *)
Theorem hover_never_affects_play (s : state) (motion_pos mouse_pos : Z * Z) :
  (∃ h, handle_mouse_motion s motion_pos = with_hover s h)
  ∧ ∀ h : bool,
      handle_click (with_hover s h) mouse_pos
      = (λ s', with_hover s' h) <$> handle_click s mouse_pos.
Proof.
  split.
  - unfold handle_mouse_motion. destruct (in_jump_sequence s) eqn:Hseq.
    + exists (_is_point_in_button motion_pos). unfold with_hover.
      by rewrite Hseq.
    + exists (button_hovered s). by destruct s.
  - intros h. unfold handle_click. cbn.
    destruct (game_over s); [done|].
    destruct (in_jump_sequence s && _is_point_in_button mouse_pos);
      [apply end_turn_hover|].
    destruct (negb (_is_valid_position _ _)); [done|].
    apply board_click_hover.
Qed.

(** ** Either player can win *)

Lemma full_game_blue_runs :
  run_clicks start_state full_game_blue = Some blue_finished_state.
Proof. vm_compute. reflexivity. Qed.

(** X26: the game can be played to the end by either player: for each
    player there is a sequence of clicks from the opening state after which
    the game is over and that player is the recorded winner. *)
Theorem either_player_can_win (pl : player) :
  ∃ (s0 s : state) (clicks : list (Z * Z)),
    init = Some s0
    ∧ run_clicks s0 clicks = Some s
    ∧ reachable s
    ∧ game_over s = true
    ∧ winner s = Some pl.
Proof.
  destruct pl.
  - exists start_state, finished_state, full_game.
    split; [reflexivity|]. split; [exact full_game_runs|].
    split; [exact reachable_finished_state|]. done.
  - exists start_state, blue_finished_state, full_game_blue.
    split; [reflexivity|]. split; [exact full_game_blue_runs|].
    split; [|done].
    apply (run_clicks_reachable full_game_blue start_state);
      [exact reachable_start_state|exact full_game_blue_runs].
Qed.

(** ** Squares and cells *)

(** X27: the 64 squares [draw_board] fills tile the board, and a click goes
    to the cell whose square covers the pixel: for every pixel of the
    640x640 board the clicked cell is in bounds, its square is drawn, white
    when row + column is even and black otherwise, and covers the pixel; and
    every drawn square that covers the pixel is that one. *)
Theorem squares_tile_the_board (s : state) (px py : Z) :
  0 ≤ px < BOARD_WIDTH → 0 ≤ py < BOARD_HEIGHT →
  let row := (clicked_cell (px, py)).1 in
  let col := (clicked_cell (px, py)).2 in
  valid (row, col)
  ∧ DrawRect (if decide ((row + col) `mod` 2 = 0) then WHITE else BLACK)
      (col * 80) (row * 80) 80 80 0 ∈ draw_board s
  ∧ (col * 80 ≤ px < col * 80 + 80 ∧ row * 80 ≤ py < row * 80 + 80)
  ∧ ∀ c x y w h,
      DrawRect c x y w h 0 ∈ draw_board s →
      x ≤ px < x + w → y ≤ py < y + h →
      (x, y, w, h) = (col * 80, row * 80, 80, 80).
Proof.
  intros Hx Hy. unfold BOARD_WIDTH, BOARD_HEIGHT, BOARD_SIZE, SQUARE_SIZE in *.
  set (row := py `div` 80). set (col := px `div` 80).
  change (clicked_cell (px, py)) with (row, col). simpl.
  assert (0 ≤ row < 8 ∧ row * 80 ≤ py < row * 80 + 80) as [Hr Hpy].
  { unfold row. pose proof (Z.div_mod py 80). pose proof (Z.mod_pos_bound py 80).
    lia. }
  assert (0 ≤ col < 8 ∧ col * 80 ≤ px < col * 80 + 80) as [Hc Hpx].
  { unfold col. pose proof (Z.div_mod px 80). pose proof (Z.mod_pos_bound px 80).
    lia. }
  assert (valid (row, col)) as Hv by (by apply valid_pos_iff).
  split; [done|]. split; [|split; [done|]].
  - apply list_elem_of_bind. exists (row, col).
    split; [|by apply elem_of_scan_order]. apply list_elem_of_here.
  - intros c x y w h ((r', c') & Hcall & Hp%elem_of_scan_order)%list_elem_of_bind
      Hcx Hcy.
    unfold draw_square in Hcall. simpl in Hcall.
    apply elem_of_cons in Hcall as [Hcall|Hcall].
    + injection Hcall as -> -> -> -> ->. unfold SQUARE_SIZE in *.
      apply valid_pos_iff in Hp.
      assert (r' = row) by lia. assert (c' = col) by lia. by subst.
    + case_decide; [by apply list_elem_of_singleton in Hcall|].
      destruct (_ || _); [by apply list_elem_of_singleton in Hcall|].
      by apply elem_of_nil in Hcall.
Qed.

Lemma squares_tile_the_board_witness :
  let row := (clicked_cell (639, 0)).1 in
  let col := (clicked_cell (639, 0)).2 in
  valid (row, col)
  ∧ DrawRect (if decide ((row + col) `mod` 2 = 0) then WHITE else BLACK)
      (col * 80) (row * 80) 80 80 0 ∈ draw_board chain_state
  ∧ (col * 80 ≤ 639 < col * 80 + 80 ∧ row * 80 ≤ 0 < row * 80 + 80)
  ∧ ∀ c x y w h,
      DrawRect c x y w h 0 ∈ draw_board chain_state →
      x ≤ 639 < x + w → y ≤ 0 < y + h →
      (x, y, w, h) = (col * 80, row * 80, 80, 80).
Proof.
  apply (squares_tile_the_board chain_state 639 0).
  - vm_compute. split; [intros H; discriminate H|reflexivity].
  - vm_compute. split; [intros H; discriminate H|reflexivity].
Defined.

(** ** Moves the click logic never makes *)

(** X28: [_perform_jump] and [_perform_simple_move] check nothing
    themselves. For any two distinct in-bounds cells they overwrite the
    target with what the source held, so a unit standing on the target is
    lost, and empty the source; with the target equal to the source they
    empty that cell. No other cell changes. *)
Theorem perform_move_checks_nothing (b : board) (fr fc tr tc : Z) :
  wf_board b → valid (fr, fc) → valid (tr, tc) →
  ∃ b' : board,
    _perform_jump b fr fc tr tc = Some b'
    ∧ _perform_simple_move b fr fc tr tc = Some b'
    ∧ cell_at b' fr fc = Some EMPTY
    ∧ cell_at b' tr tc
      = (if decide ((tr, tc) = (fr, fc)) then Some EMPTY else cell_at b fr fc)
    ∧ ∀ q : pos, valid q → q ≠ (fr, fc) → q ≠ (tr, tc) →
        cell_at b' q.1 q.2 = cell_at b q.1 q.2.
Proof.
  intros Hwf Hvf Hvt.
  apply valid_pos_iff in Hvf as Hvf'. destruct Hvf' as [Hfr Hfc].
  apply valid_pos_iff in Hvt as Hvt'. destruct Hvt' as [Htr Htc].
  case_decide as Hsame.
  - injection Hsame as -> ->.
    destruct (cell_at_is_Some b fr fc Hwf Hfr Hfc) as [v Hv].
    destruct (set_cell_spec b fr fc v Hwf Hfr Hfc)
      as (b1 & Hb1 & Hwf1 & _ & Hoth1 & _).
    destruct (set_cell_spec b1 fr fc EMPTY Hwf1 Hfr Hfc)
      as (b2 & Hb2 & _ & Hat2 & Hoth2 & _).
    assert (_perform_jump b fr fc fr fc = Some b2) as Hjump.
    { unfold _perform_jump. rewrite Hv. cbn. rewrite Hb1. cbn. done. }
    exists b2. split; [done|]. split; [by rewrite perform_simple_move_eq|].
    split; [done|]. split; [done|].
    intros [row col] [Hr Hc]%valid_pos_iff Hne _. simpl.
    rewrite Hoth2 by done. by apply Hoth1.
  - destruct (perform_jump_spec b fr fc tr tc Hwf Hvf Hvt Hsame)
      as (b' & v & Hsrc & Hjump & _ & Hto & Hfrom & Hoth & _).
    exists b'. split; [done|]. split; [by rewrite perform_simple_move_eq|].
    split; [done|]. split; [congruence|done].
Qed.

Lemma perform_move_checks_nothing_witness :
  ∃ b' : board,
    _perform_jump start_board 0 0 7 7 = Some b'
    ∧ _perform_simple_move start_board 0 0 7 7 = Some b'
    ∧ cell_at b' 0 0 = Some EMPTY
    ∧ cell_at b' 7 7
      = (if decide ((7, 7) = (0, 0)) then Some EMPTY else cell_at start_board 0 0)
    ∧ ∀ q : pos, valid q → q ≠ (0, 0) → q ≠ (7, 7) →
        cell_at b' q.1 q.2 = cell_at start_board q.1 q.2.
Proof.
  apply (perform_move_checks_nothing start_board 0 0 7 7).
  - exact wf_start_board.
  - reflexivity.
  - reflexivity.
Defined.
